(** * GASAT: a genetic algorithm with tabu search for SAT

    A shallow embedding of [SATSolver/GA.py] (class [GA]) and of the part of
    the [Individual] interface it calls, with the properties of the search
    engine stated and settled against the embedded code.

    Layout: Python exceptions as an error monad; the [Individual] object;
    clause satisfaction; fitness and improvement; the crossover operators;
    the tabu search with its diversification; the population manager; then
    the theorems. *)

From stdpp Require Import base tactics option list sorting gmap.
From Stdlib Require Import ZArith Lia.

Local Open Scope Z_scope.

(** ** Python exceptions as results *)

(** The exceptions the embedded code can raise. *)
Inductive exn : Type :=
  | IndexError      (* sequence index out of range *)
  | KeyError        (* dict lookup or [del] of a missing key *)
  | ValueError      (* [max] of an empty sequence, [list.remove] of a missing item *)
  | TypeError       (* calling an object that is not callable *)
  | AttributeError. (* attribute access on [None] *)

Inductive result (A : Type) : Type :=
  | Ok (a : A)
  | Raise (e : exn).

Arguments Ok {A} a.
Arguments Raise {A} e.

Definition bind {A B : Type} (m : result A) (f : A → result B) : result B :=
  match m with
  | Ok a => f a
  | Raise e => Raise e
  end.

Notation "x <- m ;; f" := (bind m (fun x => f))
  (at level 100, m at next level, right associativity,
   format "'[v' x  <-  m  ;;  '/' f ']'").

#[global] Instance exn_eq_dec : EqDecision exn.
Proof. solve_decision. Defined.

#[global] Instance result_eq_dec {A} `{EqDecision A} : EqDecision (result A).
Proof. solve_decision. Defined.

(** A [for] loop over a sequence whose body may raise: the state after the
    last iteration, or the first exception. *)
Fixpoint for_each {A S : Type} (body : S → A → result S) (l : list A) (s : S)
  : result S :=
  match l with
  | [] => Ok s
  | a :: l' => s' <- body s a ;; for_each body l' s'
  end.

(** ** Individuals *)

(** A literal is a non-zero signed integer, a clause a sequence of literals
    and a formula a sequence of clauses, as in the DIMACS format. *)
Definition clause := list Z.
Definition cnf := list clause.

(** Modelled from the spec: the class [Individual] ([SATSolver/individual.py])
    is not among the sources.  Spec section 3: [value[1..n]], a boolean per
    variable; [defined[1..n]], a boolean per variable; a fitness cache (valid
    flag and value).  The field names [data], [defined], [isCacheValid] and
    [fitness] are the ones [GA.py] and its tests read and write. *)
Record Individual : Type := mkIndividual {
  data : list bool;
  defined : list bool;
  isCacheValid : bool;
  fitness : Z
}.

#[global] Instance Individual_eq_dec : EqDecision Individual.
Proof. solve_decision. Defined.

(** Variables are numbered from 1; position [v] is stored at offset [v - 1].
    An index outside [1..n] is outside the spec's data model: the embedding
    gives it no value and reports it as [IndexError]. *)
Definition read_bit (bits : list bool) (v : Z) : result bool :=
  if decide (1 ≤ v) then
    match bits !! Z.to_nat (v - 1) with
    | Some b => Ok b
    | None => Raise IndexError
    end
  else Raise IndexError.

Definition write_bit (bits : list bool) (v : Z) (b : bool) : result (list bool) :=
  _ <- read_bit bits v ;; Ok (<[Z.to_nat (v - 1) := b]> bits).

(** Modelled from the spec: [get(v)] reads [value[v]] (section 4.1). *)
Definition get (X : Individual) (v : Z) : result bool := read_bit (data X) v.

(** Modelled from the spec: [is_defined(v)], called [get_defined] by
    [GA.py], reads [defined[v]]. *)
Definition get_defined (X : Individual) (v : Z) : result bool :=
  read_bit (defined X) v.

(** Modelled from the spec: "[set] writes a given bit and marks it defined";
    the fitness cache is "invalidated by any mutation". *)
Definition set (X : Individual) (v : Z) (b : bool) : result Individual :=
  d <- write_bit (data X) v b ;;
  f <- write_bit (defined X) v true ;;
  Ok {| data := d; defined := f; isCacheValid := false; fitness := fitness X |}.

(** Modelled from the spec: "[flip] toggles the bit and marks it defined". *)
Definition flip (X : Individual) (v : Z) : result Individual :=
  b <- get X v ;; set X v (negb b).

(** Modelled from the spec: "[set_defined] without a value is idempotent":
    it marks [v] defined and leaves the value alone. *)
Definition set_defined (X : Individual) (v : Z) : result Individual :=
  f <- write_bit (defined X) v true ;;
  Ok {| data := data X; defined := f; isCacheValid := false;
        fitness := fitness X |}.

(** Modelled from the spec: "[allocate(x, y)]: for every variable still
    undefined in Z, copy the value from the fitter parent (ties broken in
    favour of x).  After [allocate], Z is complete."  The method receives no
    formula, so the parents are compared on their [fitness] fields. *)
Definition fitter (x y : Individual) : Individual :=
  if decide (fitness y < fitness x) then y else x.

Fixpoint allocate_bits (vals defs parent : list bool) : list bool :=
  match vals, defs, parent with
  | b :: vals', d :: defs', p :: parent' =>
      (if d then b else p) :: allocate_bits vals' defs' parent'
  | _, _, _ => vals
  end.

Definition allocate (Z0 x y : Individual) : Individual :=
  {| data := allocate_bits (data Z0) (defined Z0) (data (fitter x y));
     defined := replicate (length (defined Z0)) true;
     isCacheValid := false;
     fitness := fitness Z0 |}.

(** [copy.deepcopy] of an individual: an equal value that shares nothing. *)
Definition deepcopy (X : Individual) : Individual := X.

(** ** Clause satisfaction *)

(** [GA.sat]: scans the atoms in order and returns [True] at the first one
    that holds; only [get] is consulted. *)
Fixpoint sat (individual : Individual) (c : clause) : result bool :=
  match c with
  | [] => Ok false
  | atom :: rest =>
      if decide (atom > 0) then
        b <- get individual atom ;;
        if b then Ok true else sat individual rest
      else
        b <- get individual (Z.abs atom) ;;
        if negb b then Ok true else sat individual rest
  end.

(** [GA.sat_crossover]: as [sat], but an atom whose variable is not defined
    makes the function return [False] at once. *)
Fixpoint sat_crossover (individual : Individual) (c : clause) : result bool :=
  match c with
  | [] => Ok false
  | atom :: rest =>
      if decide (atom > 0) then
        d <- get_defined individual atom ;;
        if negb d then Ok false else
        b <- get individual atom ;;
        if b then Ok true else sat_crossover individual rest
      else
        d <- get_defined individual (Z.abs atom) ;;
        if negb d then Ok false else
        b <- get individual (Z.abs atom) ;;
        if negb b then Ok true else sat_crossover individual rest
  end.

(** ** Fitness and improvement *)

(** The counting loop of [GA.evaluate]: one more for every clause that
    [sat] rejects. *)
Definition count_unsatisfied (f : cnf) (individual : Individual) : result Z :=
  for_each (fun num_unsatisfied_clauses c =>
              s <- sat individual c ;;
              Ok (if negb s then num_unsatisfied_clauses + 1
                  else num_unsatisfied_clauses))
           f 0.

(** [GA.evaluate], the value it returns: the cached fitness when the cache
    is valid, the count otherwise. *)
Definition evaluate (f : cnf) (individual : Individual) : result Z :=
  if isCacheValid individual then Ok (fitness individual)
  else count_unsatisfied f individual.

(** [GA.evaluate], the individual it leaves behind: the cache is marked
    valid and holds the count.  ([evaluate_store_transparent] below shows
    that later calls return what the first one did, which is why callers
    that only read the returned number use [evaluate] alone.) *)
Definition evaluate_store (f : cnf) (individual : Individual)
  : result Individual :=
  if isCacheValid individual then Ok individual
  else
    n <- count_unsatisfied f individual ;;
    Ok {| data := data individual; defined := defined individual;
          isCacheValid := true; fitness := n |}.

(** [GA.improvement]: fitness before, minus fitness of a deep copy with
    position [abs(index)] flipped. *)
Definition improvement (f : cnf) (individual : Individual) (index : Z)
  : result Z :=
  original_individual_fitness <- evaluate f individual ;;
  individual' <- evaluate_store f individual ;;
  new_individual <- flip (deepcopy individual') (Z.abs index) ;;
  new_fitness <- evaluate f new_individual ;;
  Ok (original_individual_fitness - new_fitness).

(** The fixture of the unit tests: nine variables. *)
Definition ind_of (bits : list bool) : Individual :=
  {| data := bits; defined := replicate (length bits) true;
     isCacheValid := false; fitness := 0 |}.

(** ** Crossover operators *)

(** Python's [max(seq, key=...)]: [ValueError] on an empty sequence; the key
    is computed for every element in order, and the first element with the
    greatest key is returned. *)
Fixpoint max_by_from {A : Type} (key : A → result Z) (l : list A)
    (best : A) (best_key : Z) : result A :=
  match l with
  | [] => Ok best
  | a :: l' =>
      ka <- key a ;;
      if decide (ka > best_key) then max_by_from key l' a ka
      else max_by_from key l' best best_key
  end.

Definition max_by {A : Type} (key : A → result Z) (l : list A) : result A :=
  match l with
  | [] => Raise ValueError
  | a :: l' => ka <- key a ;; max_by_from key l' a ka
  end.

(** The inner loop of [GA.corrective_clause] over the literals of one
    clause; the state is [(best_improvement, best_pos)]. *)
Definition cc_scan_step (f : cnf) (x y : Individual) (st : Z * Z) (lit : Z)
  : result (Z * Z) :=
  ix <- improvement f x (Z.abs lit) ;;
  iy <- improvement f y (Z.abs lit) ;;
  let current_improvement := ix + iy in
  if decide (current_improvement >= fst st)
  then Ok (current_improvement, Z.abs lit)
  else Ok st.

Definition cc_scan (f : cnf) (x y : Individual) (c : clause)
  : result (Z * Z) :=
  for_each (cc_scan_step f x y) c (0, 0).

(** The update of the child once the scan has chosen [best_pos]:
    [z.set(best_pos, x.get(best_pos)); z.set_defined(best_pos);
    z.flip(best_pos)]. *)
Definition cc_update (x z : Individual) (best_pos : Z) : result Individual :=
  xb <- get x best_pos ;;
  z1 <- set z best_pos xb ;;
  z2 <- set_defined z1 best_pos ;;
  flip z2 best_pos.

(** The body of the [for clause in self.formula] loop of
    [GA.corrective_clause].  Python's [and] evaluates its right operand only
    when the left one holds. *)
Definition cc_clause (f : cnf) (x y : Individual) (z : Individual)
    (c : clause) : result Individual :=
  sx <- sat x c ;;
  if sx then Ok z else
  sy <- sat y c ;;
  if sy then Ok z else
  sz <- sat_crossover z c ;;
  if sz then Ok z else
  st <- cc_scan f x y c ;;
  if decide (fst st ≠ 0) then cc_update x z (snd st) else Ok z.

(** What a call [self.improvement(individual, index)] leaves in its
    argument: the flip is made on a deep copy, but the [evaluate] before it
    has stored the fitness in the argument itself. *)
Definition improvement_store (f : cnf) (individual : Individual) (index : Z)
  : result Individual :=
  _ <- improvement f individual index ;;
  evaluate_store f individual.

(** One literal of the scan, seen from the parents: line 175 calls
    [improvement] on [x], then on [y]. *)
Definition cc_scan_parents_step (f : cnf) (xy : Individual * Individual)
    (lit : Z) : result (Individual * Individual) :=
  x <- improvement_store f (fst xy) (Z.abs lit) ;;
  y <- improvement_store f (snd xy) (Z.abs lit) ;;
  Ok (x, y).

(** The parents after the body of the clause loop: the scan runs under the
    test of [cc_clause], and nothing else in the body touches them. *)
Definition cc_clause_parents (f : cnf) (xy : Individual * Individual)
    (z : Individual) (c : clause) : result (Individual * Individual) :=
  sx <- sat (fst xy) c ;;
  if sx then Ok xy else
  sy <- sat (snd xy) c ;;
  if sy then Ok xy else
  sz <- sat_crossover z c ;;
  if sz then Ok xy else
  for_each (cc_scan_parents_step f) c xy.

(** One turn of [for clause in self.formula] on the three objects the loop
    works on: the child after it is [cc_clause] of the parents as the turn
    found them, and the parents leave it with what the scan stored. *)
Definition cc_turn (f : cnf) (st : Individual * Individual * Individual)
    (c : clause) : result (Individual * Individual * Individual) :=
  z <- cc_clause f (fst (fst st)) (snd (fst st)) (snd st) c ;;
  xy <- cc_clause_parents f (fst st) (snd st) c ;;
  Ok (xy, z).

(** [GA.corrective_clause].  [z0] is the freshly constructed child
    [Individual(numberOfVariables, method, False)]: its bits are whatever the
    constructor drew, and per the spec all its variables are undefined.
    [z.allocate(x, y)] receives the parents as the loop left them. *)
Definition corrective_clause (f : cnf) (x y z0 : Individual)
  : result Individual :=
  st <- for_each (cc_turn f) f ((x, y), z0) ;;
  Ok (allocate (snd st) (fst (fst st)) (snd (fst st))).

(** Calling an individual as a function, [x(v)]: the class has no
    [__call__] (spec section 9 records this as the source's indexing slip),
    so Python raises [TypeError]. *)
Definition call_individual (x : Individual) (v : Z) : result bool :=
  Raise TypeError.

(** First branch of [GA.fluerent_and_ferland], one literal:
    [z.set(abs(clause[i]), x(abs(clause[i]))); z.set_defined(abs(clause[i]))]. *)
Definition ff_copy_x (x : Individual) (z : Individual) (lit : Z)
  : result Individual :=
  b <- call_individual x (Z.abs lit) ;;
  z1 <- set z (Z.abs lit) b ;;
  set_defined z1 (Z.abs lit).

(** Second branch, one literal:
    [z.set(abs(clause[i], y(abs(clause[i])))); z.set_defined(abs(clause[i]))].
    The arguments of the mis-parenthesised [abs] are evaluated first, and the
    second of them is the call [y(...)]. *)
Definition ff_copy_y (y : Individual) (z : Individual) (lit : Z)
  : result Individual :=
  _ <- call_individual y (Z.abs lit) ;;
  Raise TypeError.

(** The body of the clause loop of [GA.fluerent_and_ferland]: an [if] with
    an [elif], each condition a short-circuit [and]. *)
Definition ff_clause (x y : Individual) (z : Individual) (c : clause)
  : result Individual :=
  sx <- sat x c ;;
  first <- (if sx then sy <- sat y c ;; Ok (negb sy) else Ok false) ;;
  if first then for_each (ff_copy_x x) c z else
  sx' <- sat x c ;;
  second <- (if negb sx' then sat y c else Ok false) ;;
  if second then for_each (ff_copy_y y) c z else Ok z.

Definition fluerent_and_ferland (f : cnf) (x y z0 : Individual)
  : result Individual :=
  z <- for_each (ff_clause x y) f z0 ;;
  Ok (allocate z x y).

(** ** The solver object *)

(** The attributes of a [GA] instance that the embedded methods read or
    write.  [best] is [None] until a tabu search has started. *)
Record GA : Type := mkGA {
  formula : cnf;
  numberOfVariables : Z;
  sub_population_size : Z;
  tabu_list_length : Z;
  max_flip : Z;
  is_rvcf : bool;
  is_diversification : bool;
  max_false : Z;
  rec : Z;
  k : Z;
  tabu : list Z;
  population : list Individual;
  sub_population : list Individual;
  best : option Individual;
  false_counts : list Z
}.

Definition with_tabu (self : GA) (t : list Z) : GA :=
  mkGA (formula self) (numberOfVariables self) (sub_population_size self)
       (tabu_list_length self) (max_flip self) (is_rvcf self)
       (is_diversification self) (max_false self) (rec self) (k self)
       t (population self) (sub_population self) (best self)
       (false_counts self).

Definition with_best (self : GA) (b : option Individual) : GA :=
  mkGA (formula self) (numberOfVariables self) (sub_population_size self)
       (tabu_list_length self) (max_flip self) (is_rvcf self)
       (is_diversification self) (max_false self) (rec self) (k self)
       (tabu self) (population self) (sub_population self) b
       (false_counts self).

Definition with_false_counts (self : GA) (fc : list Z) : GA :=
  mkGA (formula self) (numberOfVariables self) (sub_population_size self)
       (tabu_list_length self) (max_flip self) (is_rvcf self)
       (is_diversification self) (max_false self) (rec self) (k self)
       (tabu self) (population self) (sub_population self) (best self) fc.

Definition with_population (self : GA) (p : list Individual) : GA :=
  mkGA (formula self) (numberOfVariables self) (sub_population_size self)
       (tabu_list_length self) (max_flip self) (is_rvcf self)
       (is_diversification self) (max_false self) (rec self) (k self)
       (tabu self) p (sub_population self) (best self) (false_counts self).

(** A Python value that is either an individual or [None]. *)
Definition pyobject : Type := option Individual.

(** [self.evaluate(o)] on such a value: reading [o.isCacheValid] on [None]
    raises [AttributeError]. *)
Definition evaluate_obj (f : cnf) (o : pyobject) : result Z :=
  match o with
  | Some individual => evaluate f individual
  | None => Raise AttributeError
  end.

(** ** Python containers *)

(** [d[key]] on a dict. *)
Definition dict_get (d : gmap Z Z) (key : Z) : result Z :=
  match d !! key with
  | Some v => Ok v
  | None => Raise KeyError
  end.

(** [del d[key]]. *)
Definition dict_del (d : gmap Z Z) (key : Z) : result (gmap Z Z) :=
  match d !! key with
  | Some _ => Ok (delete key d)
  | None => Raise KeyError
  end.

(** [l[i]] for an index taken from [range(len(...))]. *)
Definition list_get {A : Type} (l : list A) (i : nat) : result A :=
  match l !! i with
  | Some a => Ok a
  | None => Raise IndexError
  end.

(** [range(n)]. *)
Definition range (n : Z) : list Z := seqZ 0 n.

(** [l[:n]]: a negative bound counts from the end. *)
Definition slice_to {A : Type} (l : list A) (n : Z) : list A :=
  if decide (0 ≤ n) then take (Z.to_nat n) l
  else take (Z.to_nat (Z.of_nat (length l) + n)) l.

(** A list comprehension [[a for a in l if p(a)]] whose condition may
    raise. *)
Fixpoint comprehension {A : Type} (p : A → result bool) (l : list A)
  : result (list A) :=
  match l with
  | [] => Ok []
  | a :: l' =>
      b <- p a ;;
      r <- comprehension p l' ;;
      Ok (if b then a :: r else r)
  end.

(** ** Tabu search *)

(** The aging loop that [GA.standard_tabu] runs after a flip, one index of
    [range(len(forbidden_flips))]:
    [forbidden_flips[forbidden_flips[index]] += 1], then the test against
    [self.k] and the [del].  The subscript of an augmented assignment is
    evaluated once; the test and the [del] evaluate it again. *)
Definition age_step (kk : Z) (forbidden_flips : gmap Z Z) (index : Z)
  : result (gmap Z Z) :=
  key <- dict_get forbidden_flips index ;;
  old <- dict_get forbidden_flips key ;;
  let forbidden_flips := <[key := old + 1]> forbidden_flips in
  key1 <- dict_get forbidden_flips index ;;
  count <- dict_get forbidden_flips key1 ;;
  if decide (count = kk) then
    key2 <- dict_get forbidden_flips index ;;
    dict_del forbidden_flips key2
  else Ok forbidden_flips.

Definition age_forbidden (kk : Z) (forbidden_flips : gmap Z Z)
  : result (gmap Z Z) :=
  for_each (age_step kk) (range (Z.of_nat (size forbidden_flips)))
           forbidden_flips.

(** The body of [for nested_clause in non_false_clauses] in the inlined
    diversification of [GA.standard_tabu] (lines 386-403). The [try] block
    re-raises what it catches. *)
Definition nested_flip (f : cnf) (kk : Z) (st : Individual * gmap Z Z)
    (nested_clause : clause) : result (Individual * gmap Z Z) :=
  let individual_temp := fst st in
  let forbidden_flips := snd st in
  let temp_clause := filter (λ c, forbidden_flips !! c = None) nested_clause in
  value <- max_by (λ c, improvement f individual_temp c) temp_clause ;;
  let pos := Z.abs value in
  if decide (forbidden_flips !! pos = None) then
    let forbidden_flips := <[pos := 0]> forbidden_flips in
    individual_temp <- flip individual_temp pos ;;
    forbidden_flips <- age_forbidden kk forbidden_flips ;;
    Ok (individual_temp, forbidden_flips)
  else Ok st.

(** One round of [for _ in range(self.rec)]: the comprehension tests the
    stumbled clause [c] (the source indexes with the outer [i]) once per
    clause of the formula, so it yields the whole formula or nothing. *)
Definition cascade_round (f : cnf) (kk : Z) (c : clause)
    (individual_in : Individual) (st : Individual * gmap Z Z) (_ : Z)
  : result (Individual * gmap Z Z) :=
  non_false_clauses <-
    comprehension (λ _ : clause,
                     a <- sat (fst st) c ;;
                     if a then b <- sat individual_in c ;; Ok (negb b)
                     else Ok false) f ;;
  for_each (nested_flip f kk) non_false_clauses st.

(** The state the tabu loop carries besides [self]. *)
Record tabu_state : Type := mkTabu {
  ts_self : GA;
  individual_in : Individual;
  num_flips : Z;
  forbidden_flips : gmap Z Z
}.

(** The forced flip of the stumbled clause [i] (lines 354-362): only a
    position that is not a key of [forbidden_flips] is flipped. *)
Definition forced_flip (self : GA) (i : nat) (individual_temp : Individual)
    (forbidden_flips : gmap Z Z) (pos : Z)
  : result (GA * (Individual * gmap Z Z)) :=
  if decide (forbidden_flips !! pos = None) then
    individual_temp <- flip individual_temp pos ;;
    Ok (with_false_counts self (<[i := 0]> (false_counts self)),
        (individual_temp, <[pos := 0]> forbidden_flips))
  else Ok (self, (individual_temp, forbidden_flips)).

(** The body of [for i in range(len(self.formula))] (lines 335-406). *)
Definition diversify_clause (st : tabu_state) (i : nat) : result tabu_state :=
  let self := ts_self st in
  let f := formula self in
  c <- list_get f i ;;
  s <- sat (individual_in st) c ;;
  if s then Ok st else
  count <- list_get (false_counts self) i ;;
  let self := with_false_counts self (<[i := count + 1]> (false_counts self)) in
  if decide (count + 1 = max_false self) then
    value <- max_by (λ l, improvement f (individual_in st) (Z.abs l)) c ;;
    let pos := Z.abs value in
    let individual_temp := deepcopy (individual_in st) in
    first <- forced_flip self i individual_temp (forbidden_flips st) pos ;;
    cascade <-
      for_each (cascade_round f (k self) c (individual_in st))
               (range (rec self)) (snd first) ;;
    Ok (mkTabu (fst first) (fst cascade) (num_flips st) (snd cascade))
  else Ok (mkTabu self (individual_in st) (num_flips st) (forbidden_flips st)).

(** A choice function as [standard_tabu] receives it: a bound method that
    reads [self] and the current individual.  Its first argument counts the
    calls made so far in the descent and stands for the state of Python's
    random generator. *)
Definition chooser : Type := nat → GA → Individual → result (Z * list Z).

(** The ordinary move of an iteration (lines 311-328): when the chosen
    position is not in [self.tabu], flip it on a deep copy, compare with
    [self.best], count the flip, age the forbidden map, and make the copy the
    current individual.  The tabu list is read, never written. *)
Definition tabu_move (st : tabu_state) (index : Z * list Z)
  : result tabu_state :=
  let self := ts_self st in
  let f := formula self in
  let individual_temp := deepcopy (individual_in st) in
  if decide (fst index ∉ tabu self) then
    individual_temp <- flip individual_temp (fst index) ;;
    e_temp <- evaluate f individual_temp ;;
    e_best <- evaluate_obj f (best self) ;;
    let self := if decide (e_temp < e_best)
                then with_best self (Some individual_temp) else self in
    forbidden <-
      (if is_diversification self
       then age_forbidden (k self) (forbidden_flips st)
       else Ok (forbidden_flips st)) ;;
    Ok (mkTabu self individual_temp (num_flips st + 1) forbidden)
  else Ok st.

(** The body of the [while] loop of [GA.standard_tabu]: the choice, the
    ordinary move, and the scan of the clauses when diversification is on. *)
Definition tabu_iteration (choose_function : chooser) (calls : nat)
    (st : tabu_state) : result tabu_state :=
  let self := ts_self st in
  index <- choose_function calls self (individual_in st) ;;
  st1 <- tabu_move st index ;;
  if is_diversification self
  then for_each diversify_clause (seq 0 (length (formula self))) st1
  else Ok st1.

(** The [while] test: [not (self.evaluate(self.best) == 0) and
    (self.max_flip > num_flips)]. *)
Definition tabu_continue (st : tabu_state) : result bool :=
  e_best <- evaluate_obj (formula (ts_self st)) (best (ts_self st)) ;;
  Ok (negb (bool_decide (e_best = 0))
      && bool_decide (max_flip (ts_self st) > num_flips st)).

(** The [while] loop, with the number of iterations bounded by [fuel]:
    [None] when the bound is reached before the loop ends. *)
Fixpoint tabu_loop (fuel : nat) (choose_function : chooser) (calls : nat)
    (st : tabu_state) : option (result tabu_state) :=
  match fuel with
  | O => None
  | S fuel' =>
      match tabu_continue st with
      | Raise e => Some (Raise e)
      | Ok false => Some (Ok st)
      | Ok true =>
          match tabu_iteration choose_function calls st with
          | Raise e => Some (Raise e)
          | Ok st' => tabu_loop fuel' choose_function (S calls) st'
          end
      end
  end.

(** The state with which [GA.standard_tabu] enters its loop (lines
    303-307). *)
Definition tabu_init (self : GA) (individual_in : Individual) : tabu_state :=
  let self := with_tabu self (slice_to (tabu self) (tabu_list_length self)) in
  let self := with_best self (Some individual_in) in
  mkTabu self individual_in 0 ∅.

(** [GA.standard_tabu]: the value returned and [self] afterwards.  The
    method body ends with the loop; there is no [return] statement, so the
    value is Python's [None]. *)
Definition standard_tabu (fuel : nat) (self : GA) (individual_in : Individual)
    (choose_function : chooser) : option (result (pyobject * GA)) :=
  match tabu_loop fuel choose_function 0 (tabu_init self individual_in) with
  | None => None
  | Some (Raise e) => Some (Raise e)
  | Some (Ok st) => Some (Ok (None, ts_self st))
  end.

(** One position of the loop of [GA.standard_tabu_choose]; the state is
    [(positions, best_sigma)], with [None] for [Decimal('-Infinity')]. *)
Definition choose_step (self : GA) (assignment : Individual)
    (st : list Z * option Z) (position : Z) : result (list Z * option Z) :=
  let f := formula self in
  temp <- flip (deepcopy assignment) position ;;
  admissible <-
    (if decide (position ∉ tabu self) then Ok true
     else
       e_temp <- evaluate f temp ;;
       e_best <- evaluate_obj f (best self) ;;
       Ok (bool_decide (e_temp < e_best))) ;;
  if admissible : bool then
    gain <- improvement f assignment position ;;
    match snd st with
    | None => Ok ([position], Some gain)
    | Some best_sigma =>
        if decide (gain > best_sigma) then Ok ([position], Some gain)
        else if decide (gain = best_sigma)
             then Ok (fst st ++ [position], snd st)
             else Ok st
    end
  else
    match snd st with
    | None => Ok (fst st ++ [position], None)
    | Some _ => Ok st
    end.

(** [GA.standard_tabu_choose].  [random_choice n l] is the outcome of the
    [n]-th [random.choice(l)] of the descent. *)
Definition standard_tabu_choose (random_choice : nat → list Z → result Z)
  : chooser :=
  λ calls self assignment,
    st <- for_each (choose_step self assignment)
                   (seqZ 1 (Z.of_nat (length (data assignment)))) ([], None) ;;
    p <- random_choice calls (fst st) ;;
    Ok (p, fst st).

(** One admissible outcome of [random.choice]: the first element.
    [random.choice] of an empty sequence raises [IndexError]. *)
Definition choose_first (_ : nat) (l : list Z) : result Z :=
  match l with
  | [] => Raise IndexError
  | p :: _ => Ok p
  end.

(** [GA.check_flip]: mutates the individual and the dict it is given; the
    pair returned here is their state afterwards. *)
Definition check_flip (f : cnf) (kk : Z) (individual : Individual)
    (c : clause) (iteration_dict : gmap Z Z)
  : result (Individual * gmap Z Z) :=
  let temp_clause := filter (λ l, iteration_dict !! l = None) c in
  value <- max_by (λ l, improvement f individual l) temp_clause ;;
  let pos := Z.abs value in
  match iteration_dict !! pos with
  | Some count =>
      if decide (count < kk) then
        individual' <- flip individual pos ;;
        Ok (individual', <[pos := count + 1]> iteration_dict)
      else Ok (individual, delete pos iteration_dict)
  | None =>
      individual' <- flip individual pos ;;
      Ok (individual', <[pos := 1]> iteration_dict)
  end.

(** First loop of [GA.tabu_with_diversification]: the false counts and the
    clauses that reached [max_false]. *)
Definition stumble_step (individual : Individual) (st : GA * list clause)
    (i : nat) : result (GA * list clause) :=
  let self := fst st in
  c <- list_get (formula self) i ;;
  s <- sat individual c ;;
  if s then Ok st else
  count <- list_get (false_counts self) i ;;
  if decide (count + 1 = max_false self) then
    Ok (with_false_counts self (<[i := 0]> (false_counts self)), snd st ++ [c])
  else
    Ok (with_false_counts self (<[i := count + 1]> (false_counts self)), snd st).

(** The cascade of [GA.tabu_with_diversification] for one stumbled
    clause. *)
Definition twd_round (f : cnf) (kk : Z) (c : clause) (individual : Individual)
    (st : Individual * gmap Z Z) (_ : Z) : result (Individual * gmap Z Z) :=
  non_false_clauses <-
    comprehension (λ _ : clause,
                     a <- sat (fst st) c ;;
                     if a then b <- sat individual c ;; Ok (negb b)
                     else Ok false) f ;;
  for_each (λ s nested_clause, check_flip f kk (fst s) nested_clause (snd s))
           non_false_clauses st.

Definition twd_clause (self : GA) (individual : Individual)
    (st : Individual * gmap Z Z) (c : clause)
  : result (Individual * gmap Z Z) :=
  st1 <- check_flip (formula self) (k self) (fst st) c (snd st) ;;
  for_each (twd_round (formula self) (k self) c individual)
           (range (rec self)) st1.

(** [GA.tabu_with_diversification]: the individual returned and [self]
    afterwards. *)
Definition tabu_with_diversification (self : GA) (individual : Individual)
  : result (Individual * GA) :=
  st <- for_each (stumble_step individual)
                 (seq 0 (length (formula self))) (self, []) ;;
  let individual_temp := deepcopy individual in
  r <- for_each (twd_clause (fst st) individual) (snd st)
                (individual_temp, ∅) ;;
  Ok (fst r, fst st).

(** ** Population manager *)

(** [list.remove(x)]: drops the first item equal to [x]; [ValueError] when
    there is none. *)
Fixpoint list_remove (x : Individual) (l : list Individual)
  : result (list Individual) :=
  match l with
  | [] => Raise ValueError
  | a :: l' =>
      if decide (a = x) then Ok l'
      else r <- list_remove x l' ;; Ok (a :: r)
  end.

(** The object whose attribute is read: [None] has none. *)
Definition attr_target (o : pyobject) : result Individual :=
  match o with
  | Some individual => Ok individual
  | None => Raise AttributeError
  end.

(** [GA.replace]: [self] afterwards. *)
Definition replace (self : GA) (child : pyobject) : result GA :=
  let f := formula self in
  weakest_individual <- max_by (evaluate f) (sub_population self) ;;
  e_weakest <- evaluate f weakest_individual ;;
  e_child <- evaluate_obj f child ;;
  if negb (bool_decide (e_weakest > e_child)) then
    remaining <- list_remove weakest_individual (population self) ;;
    the_child <- attr_target child ;;
    Ok (with_population self (remaining ++ [the_child]))
  else Ok self.

(** [GA.is_satisfied]. *)
Fixpoint is_satisfied_in (f : cnf) (l : list Individual) : result pyobject :=
  match l with
  | [] => Ok None
  | individual :: l' =>
      e <- evaluate f individual ;;
      if decide (e = 0) then Ok (Some individual) else is_satisfied_in f l'
  end.

Definition is_satisfied (self : GA) : result pyobject :=
  is_satisfied_in (formula self) (population self).

(** Lines 635-640 of [GA.gasat]: the tabu step rebinds [child] to what
    [standard_tabu] returns, and [replace] receives that value. *)
Definition gasat_refine (fuel : nat) (self : GA) (child : Individual)
    (standard_choose choose_rvcf : chooser)
  : option (result (pyobject * GA)) :=
  if negb (is_rvcf self)
  then standard_tabu fuel self child standard_choose
  else standard_tabu fuel self child choose_rvcf.

Definition gasat_refine_replace (fuel : nat) (self : GA) (child : Individual)
    (standard_choose choose_rvcf : chooser) : option (result GA) :=
  match gasat_refine fuel self child standard_choose choose_rvcf with
  | None => None
  | Some (Raise e) => Some (Raise e)
  | Some (Ok r) => Some (replace (snd r) (fst r))
  end.

(** ** Vocabulary of the statements *)

Definition in_range (n : nat) (v : Z) : Prop := 1 ≤ v ≤ Z.of_nat n.

(** Both vectors of the individual have [n] entries. *)
Definition wf_individual (n : nat) (X : Individual) : Prop :=
  length (data X) = n ∧ length (defined X) = n.

(** Every literal names a variable in [1..n]. *)
Definition wf_clause (n : nat) (c : clause) : Prop :=
  Forall (λ l, in_range n (Z.abs l)) c.

Definition wf_cnf (n : nat) (f : cnf) : Prop := Forall (wf_clause n) f.

(** The individual [flip] produces when [v] is in range. *)
Definition flipped (X : Individual) (v : Z) (b : bool) : Individual :=
  {| data := <[Z.to_nat (v - 1) := negb b]> (data X);
     defined := <[Z.to_nat (v - 1) := true]> (defined X);
     isCacheValid := false;
     fitness := fitness X |}.

(** The individual with the same values and every variable defined. *)
Definition completed (X : Individual) : Individual :=
  {| data := data X; defined := replicate (length (data X)) true;
     isCacheValid := isCacheValid X; fitness := fitness X |}.

(** Literal [l] evaluates true (false) under the values of [X], and its
    variable is defined in [X]. *)
Definition lit_true (X : Individual) (l : Z) : Prop :=
  get X (Z.abs l) = Ok (bool_decide (l > 0)).

Definition lit_false (X : Individual) (l : Z) : Prop :=
  get X (Z.abs l) = Ok (negb (bool_decide (l > 0))).

Definition lit_defined (X : Individual) (l : Z) : Prop :=
  get_defined X (Z.abs l) = Ok true.

Definition lit_undefined (X : Individual) (l : Z) : Prop :=
  get_defined X (Z.abs l) = Ok false.

(** The cache, when valid, holds what the counting loop would compute. *)
Definition cache_ok (f : cnf) (X : Individual) : Prop :=
  isCacheValid X = true → count_unsatisfied f X = Ok (fitness X).

(** The combined gain the scan computes for a literal:
    [improvement(x, |l|) + improvement(y, |l|)]. *)
Definition combined_gain (f : cnf) (x y : Individual) (l : Z) : result Z :=
  ix <- improvement f x (Z.abs l) ;;
  iy <- improvement f y (Z.abs l) ;;
  Ok (ix + iy).

(** The child after [set(p, b); set_defined(p); flip(p)]: position [p] is
    defined and holds the complement of [b]; nothing else moves. *)
Definition cc_written (z : Individual) (p : Z) (b : bool) : Individual :=
  {| data := <[Z.to_nat (p - 1) := negb b]> (data z);
     defined := <[Z.to_nat (p - 1) := true]> (defined z);
     isCacheValid := false;
     fitness := fitness z |}.

(** The solver object of the examples: the given formula, population and
    sub-population, no diversification. *)
Definition solver (f : cnf) (pop sub : list Individual) : GA :=
  {| formula := f; numberOfVariables := 2; sub_population_size := 15;
     tabu_list_length := 5; max_flip := 10; is_rvcf := false;
     is_diversification := false; max_false := 1; rec := 1; k := 5;
     tabu := []; population := pop; sub_population := sub; best := None;
     false_counts := replicate (length f) 0 |}.

(** The attributes of [self] that no step of the tabu loop assigns. *)
Definition same_settings (self self' : GA) : Prop :=
  tabu self' = tabu self ∧ max_flip self' = max_flip self
  ∧ formula self' = formula self
  ∧ is_diversification self' = is_diversification self.

(** A solver object with diversification enabled: [max_false = 1], one
    cascade round, [k = 5]. *)
Definition diversifying (f : cnf) : GA :=
  {| formula := f; numberOfVariables := 2; sub_population_size := 15;
     tabu_list_length := 5; max_flip := 10; is_rvcf := false;
     is_diversification := true; max_false := 1; rec := 1; k := 5;
     tabu := []; population := []; sub_population := []; best := None;
     false_counts := replicate (length f) 0 |}.

(** ** Further methods of [GA] *)

(** [GA.degree], one literal of the loop: the literal is appended when it
    evaluates true.  Every literal is read; nothing stops the loop early. *)
Definition degree_step (individual : Individual) (list_of_literals : list Z)
    (literal : Z) : result (list Z) :=
  if decide (literal > 0) then
    b <- get individual literal ;;
    Ok (if b then list_of_literals ++ [literal] else list_of_literals)
  else
    b <- get individual (Z.abs literal) ;;
    Ok (if negb b then list_of_literals ++ [literal] else list_of_literals).

(** [GA.degree]: the number of literals collected. *)
Definition degree (individual : Individual) (c : clause) : result Z :=
  list_of_literals <- for_each (degree_step individual) c [] ;;
  Ok (Z.of_nat (length list_of_literals)).

(** The test [x.get(v) == 1 or y.get(v) == 1] of the truth-maintenance pass;
    [or] reads [y] only when [x] does not hold. *)
Definition tm_candidate (x y : Individual) (v : Z) : result bool :=
  bx <- get x v ;;
  if bx then Ok true else get y v.

(** Second pass of [GA.corrective_clause_with_truth_maintenance], one
    literal of the inner loop; the state is
    [(minimum_improvement, best_pos)].  [and] calls [sat_crossover] only when
    the gain is below the minimum so far. *)
Definition tm_scan_step (f : cnf) (x y z : Individual) (c : clause)
    (st : Z * Z) (lit : Z) : result (Z * Z) :=
  candidate <- tm_candidate x y (Z.abs lit) ;;
  if candidate : bool then
    ix <- improvement f x (Z.abs lit) ;;
    iy <- improvement f y (Z.abs lit) ;;
    let current_improvement := ix + iy in
    z_new <- set (deepcopy z) (Z.abs lit) true ;;
    z_new <- set_defined z_new (Z.abs lit) ;;
    better <-
      (if decide (current_improvement < fst st) then sat_crossover z_new c
       else Ok false) ;;
    if better : bool then Ok (current_improvement, Z.abs lit) else Ok st
  else Ok st.

(** The assignment the pass makes: [z.set(best_pos, 1);
    z.set_defined(best_pos)]. *)
Definition tm_update (z : Individual) (best_pos : Z) : result Individual :=
  z1 <- set z best_pos true ;;
  set_defined z1 best_pos.

(** Second pass, the body of the clause loop.  [m] is
    [self.numberOfClauses]. *)
Definition tm_clause (f : cnf) (m : Z) (x y : Individual) (z : Individual)
    (c : clause) : result Individual :=
  sx <- sat x c ;;
  if negb sx then Ok z else
  sy <- sat y c ;;
  if negb sy then Ok z else
  sz <- sat_crossover z c ;;
  if sz then Ok z else
  st <- for_each (tm_scan_step f x y z c) c (m + 1, -1) ;;
  if decide (snd st = -1) then Ok z else tm_update z (snd st).

(** One literal of the second pass, seen from the parents: [improvement] is
    called on both for a candidate literal, on neither otherwise. *)
Definition tm_scan_parents_step (f : cnf) (xy : Individual * Individual)
    (lit : Z) : result (Individual * Individual) :=
  candidate <- tm_candidate (fst xy) (snd xy) (Z.abs lit) ;;
  if candidate : bool then cc_scan_parents_step f xy lit else Ok xy.

(** The parents after the body of the clause loop of the second pass. *)
Definition tm_clause_parents (f : cnf) (xy : Individual * Individual)
    (z : Individual) (c : clause) : result (Individual * Individual) :=
  sx <- sat (fst xy) c ;;
  if negb sx then Ok xy else
  sy <- sat (snd xy) c ;;
  if negb sy then Ok xy else
  sz <- sat_crossover z c ;;
  if sz then Ok xy else
  for_each (tm_scan_parents_step f) c xy.

(** One turn of the second [for clause in self.formula]. *)
Definition tm_turn (f : cnf) (m : Z)
    (st : Individual * Individual * Individual) (c : clause)
  : result (Individual * Individual * Individual) :=
  z <- tm_clause f m (fst (fst st)) (snd (fst st)) (snd st) c ;;
  xy <- tm_clause_parents f (fst st) (snd st) c ;;
  Ok (xy, z).

(** [GA.corrective_clause_with_truth_maintenance]: the first pass is the
    clause loop of [corrective_clause], statement for statement. *)
Definition corrective_clause_with_truth_maintenance (f : cnf) (m : Z)
    (x y z0 : Individual) : result Individual :=
  st <- for_each (cc_turn f) f ((x, y), z0) ;;
  st <- for_each (tm_turn f m) f st ;;
  Ok (allocate (snd st) (fst (fst st)) (snd (fst st))).

(** ** Sorting and selection *)

(** [list.sort(key=...)] computes the key of every item first, in order. *)
Fixpoint keyed (key : Individual → result Z) (l : list Individual)
  : result (list (Z * Individual)) :=
  match l with
  | [] => Ok []
  | a :: l' =>
      ka <- key a ;;
      r <- keyed key l' ;;
      Ok ((ka, a) :: r)
  end.

(** Python's sort is stable and ascending; a stable sort has one possible
    result, computed here by insertion: an item goes before the first later
    item whose key is not smaller. *)
Fixpoint insert_by_key (a : Z * Individual) (l : list (Z * Individual))
  : list (Z * Individual) :=
  match l with
  | [] => [a]
  | b :: l' =>
      if decide (fst a ≤ fst b) then a :: b :: l'
      else b :: insert_by_key a l'
  end.

Definition sort_by_key (l : list (Z * Individual)) : list (Z * Individual) :=
  foldr insert_by_key [] l.

Definition list_sort (key : Individual → result Z) (l : list Individual)
  : result (list Individual) :=
  kl <- keyed key l ;;
  Ok (snd <$> sort_by_key kl).

Definition with_sub_population (self : GA) (s : list Individual) : GA :=
  mkGA (formula self) (numberOfVariables self) (sub_population_size self)
       (tabu_list_length self) (max_flip self) (is_rvcf self)
       (is_diversification self) (max_false self) (rec self) (k self)
       (tabu self) (population self) s (best self) (false_counts self).

(** [GA.select], lines 556-557: the population is sorted in place by
    fitness and its head becomes the sub-population.  (The random draw of the
    two parents that follows compares individuals with [==], which belongs to
    the absent [Individual] class; it is an input of [gasat] below.) *)
Definition select_sub_population (self : GA) : result GA :=
  sorted <- list_sort (evaluate (formula self)) (population self) ;;
  let self := with_population self sorted in
  Ok (with_sub_population self
        (slice_to (population self) (sub_population_size self))).

(** ** The driver *)

(** The attributes of [GA] that only the driver reads. *)
Record driver : Type := mkDriver {
  max_generations : Z;
  population_size : Z;
  crossover_operator : Z;
  numberOfClauses : Z
}.

(** What the driver takes from outside the embedded code:
    [new_individual n] is the [n]-th object built by
    [Individual(numberOfVariables, method, False)];
    [draw_parents g self] is the outcome of the random draw of [select] in
    generation [g] ([None] when its redraw loop does not end);
    [random_choice] is the [random.choice] of [standard_tabu_choose];
    [choose_rvcf] stands for the method of that name, whose weights are
    floating-point numbers. *)
Record oracles : Type := mkOracles {
  new_individual : nat → Individual;
  draw_parents : nat → GA → option (result (Individual * Individual));
  random_choice : nat → list Z → result Z;
  choose_rvcf : chooser
}.

(** [GA.create_population]: [population_size] fresh individuals are
    appended to whatever the population holds. *)
Definition create_population (d : driver) (o : oracles) (self : GA) : GA :=
  with_population self
    (population self
     ++ (new_individual o <$> seq 0 (Z.to_nat (population_size d)))).

(** Lines 627-633 of [GA.gasat]: [child] stays [None] when the operator
    number is none of 0, 1, 2. *)
Definition crossover (d : driver) (o : oracles) (g : nat) (self : GA)
    (x y : Individual) : result pyobject :=
  let z0 := new_individual o (Z.to_nat (population_size d) + g) in
  if decide (crossover_operator d = 0) then
    child <- corrective_clause (formula self) x y z0 ;; Ok (Some child)
  else if decide (crossover_operator d = 1) then
    child <- corrective_clause_with_truth_maintenance
               (formula self) (numberOfClauses d) x y z0 ;;
    Ok (Some child)
  else if decide (crossover_operator d = 2) then
    child <- fluerent_and_ferland (formula self) x y z0 ;; Ok (Some child)
  else Ok None.

(** Lines 635-640 on the value [crossover] produced: [standard_tabu] called
    on [None] stores it in [self.best] and fails on the first
    [self.evaluate(self.best)]. *)
Definition refine_and_replace (fuel : nat) (o : oracles) (self : GA)
    (child : pyobject) : option (result GA) :=
  match child with
  | None => Some (Raise AttributeError)
  | Some individual =>
      gasat_refine_replace fuel self individual
        (standard_tabu_choose (random_choice o)) (choose_rvcf o)
  end.

(** One turn of the [while] loop of [GA.gasat] (lines 623-643): [self]
    afterwards and the value of [satisfied_individual].  No observer is
    attached, so assigning the generation counter notifies nobody. *)
Definition gasat_generation (fuel : nat) (d : driver) (o : oracles) (g : nat)
    (self : GA) : option (result (pyobject * GA)) :=
  match select_sub_population self with
  | Raise e => Some (Raise e)
  | Ok self =>
      match draw_parents o g self with
      | None => None
      | Some (Raise e) => Some (Raise e)
      | Some (Ok parents) =>
          match crossover d o g self (fst parents) (snd parents) with
          | Raise e => Some (Raise e)
          | Ok child =>
              match refine_and_replace fuel o self child with
              | None => None
              | Some (Raise e) => Some (Raise e)
              | Some (Ok self) =>
                  Some (satisfied_individual <- is_satisfied self ;;
                        Ok (satisfied_individual, self))
              end
          end
      end
  end.

(** The [while] loop of [GA.gasat]; [turns] bounds the number of its
    iterations and [g] is [self._generation_counter]. *)
Fixpoint gasat_loop (turns fuel : nat) (d : driver) (o : oracles) (g : nat)
    (self : GA) (satisfied_individual : pyobject)
  : option (result (pyobject * GA)) :=
  match turns with
  | O => None
  | S turns' =>
      if bool_decide (satisfied_individual = None)
         && bool_decide (Z.of_nat g < max_generations d)
      then
        match gasat_generation fuel d o g self with
        | None => None
        | Some (Raise e) => Some (Raise e)
        | Some (Ok r) => gasat_loop turns' fuel d o (S g) (snd r) (fst r)
        end
      else Some (Ok (satisfied_individual, self))
  end.

(** [GA.gasat]: the individual returned and [self] afterwards. *)
Definition gasat (turns fuel : nat) (d : driver) (o : oracles) (self : GA)
  : option (result (Individual * GA)) :=
  let self := create_population d o self in
  match gasat_loop turns fuel d o 0 self None with
  | None => None
  | Some (Raise e) => Some (Raise e)
  | Some (Ok (Some individual, self)) => Some (Ok (individual, self))
  | Some (Ok (None, self)) =>
      Some (sorted <- list_sort (evaluate (formula self)) (population self) ;;
            first <- list_get sorted 0 ;;
            Ok (first, with_population self sorted))
  end.

(** ** Reading the clauses of a DIMACS file *)

(** The exception [parse_formula] raises from its [except] clause: the
    number of the line being read and the exception caught. *)
Inductive parse_error : Type :=
  | ParseException (line : Z) (cause : exn).

(** The inner [while] loop of [SATController.parse_formula].  A line is
    given as the integers [int(t.strip())] of the tokens [t] of
    [lines[line].split()].  Returns the clause gathered, the lines left and
    the next line number. *)
Fixpoint read_clause (lines : list (list Z)) (line : Z) (gathered : list Z)
  : parse_error + (list Z * list (list Z) * Z) :=
  match lines with
  | [] => inr (gathered, [], line)
  | tokens :: rest =>
      let gathered := gathered ++ filter (λ t, t ≠ 0) tokens in
      match last tokens with
      | None => inl (ParseException line IndexError)
      | Some t =>
          if decide (t = 0) then inr (gathered, rest, line + 1)
          else read_clause rest (line + 1) gathered
      end
  end.

(** The outer [while] loop; [fuel] bounds its iterations. *)
Fixpoint read_formula (fuel : nat) (lines : list (list Z)) (line : Z)
    (parsed : cnf) : option (parse_error + cnf) :=
  match fuel with
  | O => None
  | S fuel' =>
      match lines with
      | [] => Some (inr parsed)
      | _ :: _ =>
          match read_clause lines line [] with
          | inl e => Some (inl e)
          | inr (c, rest, line') =>
              read_formula fuel' rest line' (parsed ++ [c])
          end
      end
  end.

(** The [try] block of [parse_formula] on the lines after the header
    ([line] starts at 1). *)
Definition parse_clauses (lines : list (list Z)) : option (parse_error + cnf) :=
  read_formula (S (length lines)) lines 1 [].

(** ** Vocabulary of the further statements *)

(** The test of [standard_tabu_choose] that lets a position compete: it is
    not tabu, or flipping it beats [self.best]. *)
Definition admissible (self : GA) (assignment : Individual) (position : Z)
  : result bool :=
  temp <- flip (deepcopy assignment) position ;;
  if decide (position ∉ tabu self) then Ok true
  else
    e_temp <- evaluate (formula self) temp ;;
    e_best <- evaluate_obj (formula self) (best self) ;;
    Ok (bool_decide (e_temp < e_best)).

(** The loop of [standard_tabu_choose] over the positions [1..n]. *)
Definition choose_positions (self : GA) (assignment : Individual)
  : result (list Z * option Z) :=
  for_each (choose_step self assignment)
           (seqZ 1 (Z.of_nat (length (data assignment)))) ([], None).

(** Literal [l] evaluates true under the values of [X], as a boolean. *)
Definition lit_holds (X : Individual) (l : Z) : result bool :=
  b <- get X (Z.abs l) ;; Ok (bool_decide (b = bool_decide (l > 0))).

(** The parents [xy'] are the parents [xy] as some calls of [evaluate] left
    them: untouched, or each with its fitness stored. *)
Definition parents_evaluated (f : cnf) (xy xy' : Individual * Individual) : Prop :=
  xy' = xy
  ∨ (evaluate_store f (fst xy) = Ok (fst xy')
     ∧ evaluate_store f (snd xy) = Ok (snd xy')).

(** The order of keyed items. *)
Definition key_le (a b : Z * Individual) : Prop := fst a ≤ fst b.

(** The positions of [l] that are admissible and whose gain is [s], in the
    order of [l]. *)
Definition best_gain_positions (adm : Z → bool) (g : Z → Z) (s : Z)
    (l : list Z) : list Z :=
  filter (λ p, adm p = true ∧ g p = s) l.

(** What [(positions, best_sigma)] holds after the positions [visited]. *)
Definition choose_inv (adm : Z → bool) (g : Z → Z) (visited : list Z)
    (st : list Z * option Z) : Prop :=
  match snd st with
  | None => fst st = visited ∧ ∀ q, q ∈ visited → adm q = false
  | Some s =>
      fst st = best_gain_positions adm g s visited
      ∧ fst st ≠ []
      ∧ ∀ q, q ∈ visited → adm q = true → g q ≤ s
  end.

(** * Properties *)

(** ** The unit tests of [sat] *)

Example test_sat_1 :
  sat (ind_of [false;false;false;true;false;false;false;false;false]) [9; -5]
  = Ok true.
Proof. reflexivity. Qed.

Example test_sat_2 :
  sat (ind_of [false;false;false;true;false;false;false;false;false]) [1; 3; 6]
  = Ok false.
Proof. reflexivity. Qed.

Example test_sat_3 : sat (ind_of (replicate 9 true)) [-6; -4] = Ok false.
Proof. reflexivity. Qed.

(** ** The error monad and the loops *)

Lemma bind_Ok {A B} (m : result A) (f : A → result B) (b : B) :
  bind m f = Ok b → ∃ a, m = Ok a ∧ f a = Ok b.
Proof. destruct m as [a|e]; simpl; [eauto | discriminate]. Qed.

(** An exception raised by the body at some item, after the items before it
    ran normally, is the outcome of the whole loop. *)
Lemma for_each_raise {A S} (body : S → A → result S) pre a post s s' e :
  for_each body pre s = Ok s' →
  body s' a = Raise e →
  for_each body (pre ++ a :: post) s = Raise e.
Proof.
  revert s. induction pre as [|b pre IH]; simpl; intros s Hpre Hbody.
  - inversion Hpre; subst. by rewrite Hbody.
  - destruct (body s b) as [s1|e1]; simpl in *; [eauto | discriminate].
Qed.

(** A property kept by every normal iteration holds after the loop. *)
Lemma for_each_invariant {A S} (P : S → Prop) (body : S → A → result S) l :
  (∀ s a s', P s → body s a = Ok s' → P s') →
  ∀ s s', P s → for_each body l s = Ok s' → P s'.
Proof.
  intros Hstep. induction l as [|a l IH]; simpl; intros s s' Hs Hrun.
  - by inversion Hrun; subst.
  - apply bind_Ok in Hrun as (s1 & H1 & H2). eauto.
Qed.

(** ** Bits and individuals *)

Lemma read_bit_in_range bits v :
  in_range (length bits) v → ∃ b, read_bit bits v = Ok b.
Proof.
  intros [H1 H2]. unfold read_bit. rewrite decide_True by done.
  destruct (lookup_lt_is_Some_2 bits (Z.to_nat (v - 1))) as [b Hb]; [lia|].
  rewrite Hb. eauto.
Qed.

Lemma read_bit_Ok bits v b :
  read_bit bits v = Ok b →
  in_range (length bits) v ∧ bits !! Z.to_nat (v - 1) = Some b.
Proof.
  unfold read_bit. case_decide; [|discriminate].
  destruct (bits !! Z.to_nat (v - 1)) as [b'|] eqn:Hb; [|discriminate].
  intros [= ->]. split; [|done].
  apply lookup_lt_Some in Hb. unfold in_range. lia.
Qed.

Lemma write_bit_Ok bits v b :
  in_range (length bits) v →
  write_bit bits v b = Ok (<[Z.to_nat (v - 1) := b]> bits).
Proof.
  intros H. unfold write_bit.
  destruct (read_bit_in_range bits v H) as [b' ->]. reflexivity.
Qed.

Lemma read_bit_write_bit bits v b :
  in_range (length bits) v →
  read_bit (<[Z.to_nat (v - 1) := b]> bits) v = Ok b.
Proof.
  intros [H1 H2]. unfold read_bit. rewrite decide_True by done.
  rewrite list_lookup_insert_eq by lia. reflexivity.
Qed.

Lemma flip_Ok n X v :
  wf_individual n X → in_range n v →
  ∃ b, get X v = Ok b ∧ flip X v = Ok (flipped X v b).
Proof.
  intros [Hd Hf] Hv. unfold flip, get, set.
  destruct (read_bit_in_range (data X) v) as [b Hb]; [by rewrite Hd|].
  exists b. split; [done|]. rewrite Hb. simpl.
  rewrite !write_bit_Ok by (rewrite ?Hd, ?Hf; done). reflexivity.
Qed.

Lemma wf_flipped n X v b : wf_individual n X → wf_individual n (flipped X v b).
Proof. intros [? ?]. split; simpl; by rewrite length_insert. Qed.

(** Flipping twice restores the values. *)
Lemma flipped_twice_data X v b :
  get X v = Ok b →
  data (flipped (flipped X v b) v (negb b)) = data X.
Proof.
  intros Hb. apply read_bit_Ok in Hb as [_ Hb]. simpl.
  rewrite list_insert_insert_eq, negb_involutive. by apply list_insert_id.
Qed.

(** ** Clause satisfaction *)

(** [sat] depends on the individual through its values only. *)
Lemma sat_ext (X Y : Individual) (c : clause) :
  data X = data Y → sat X c = sat Y c.
Proof.
  intros Heq. induction c as [|atom rest IH]; simpl; [done|].
  unfold get. rewrite Heq, IH. reflexivity.
Qed.

Lemma sat_total n X c :
  length (data X) = n → wf_clause n c → ∃ b, sat X c = Ok b.
Proof.
  intros Hn Hc. induction Hc as [|atom rest Hatom _ IH]; simpl; [eauto|].
  destruct IH as [r Hr]. rewrite Hr.
  case_decide.
  - destruct (read_bit_in_range (data X) atom) as [b Hb].
    { rewrite Hn. unfold in_range in *. lia. }
    unfold get. rewrite Hb. simpl. destruct b; eauto.
  - destruct (read_bit_in_range (data X) (Z.abs atom)) as [b Hb].
    { by rewrite Hn. }
    unfold get. rewrite Hb. simpl. destruct b; simpl; eauto.
Qed.

(** C10.  For every clause and any two individuals that carry the same
    truth values, whatever their defined flags (and cached fitness), [sat]
    returns the same result: it reads the stored values only. *)
Theorem sat_ignores_defined_flags (X Y : Individual) (c : clause) :
  data X = data Y → sat X c = sat Y c.
Proof. apply sat_ext. Qed.

Lemma sat_ignores_defined_flags_witness :
  sat (mkIndividual [true; false] [false; false] false 0) [-1; 2]
  = sat (mkIndividual [true; false] [true; true] true 7) [-1; 2].
Proof. by apply sat_ignores_defined_flags. Defined.

(** On a partial assignment [sat] answers as on the complete assignment with
    the same values. *)
Corollary sat_partial_as_complete (X : Individual) (c : clause) :
  sat X c = sat (completed X) c.
Proof. by apply sat_ext. Qed.

(** ** [sat_crossover] *)

(** One unfolding of the scan, with both signs of the atom put together. *)
Lemma sat_crossover_cons X atom rest :
  sat_crossover X (atom :: rest) =
    (d <- get_defined X (Z.abs atom) ;;
     if negb d then Ok false else
     b <- get X (Z.abs atom) ;;
     if bool_decide (b = bool_decide (atom > 0)) then Ok true
     else sat_crossover X rest).
Proof.
  simpl. case_decide as Hs.
  - rewrite Z.abs_eq by lia. rewrite bool_decide_eq_true_2 by done.
    destruct (get_defined X atom) as [[]|]; simpl; try done.
    by destruct (get X atom) as [[]|].
  - rewrite bool_decide_eq_false_2 by done.
    destruct (get_defined X (Z.abs atom)) as [[]|]; simpl; try done.
    by destruct (get X (Z.abs atom)) as [[]|].
Qed.

(** Scanning past a prefix of defined, false literals. *)
Lemma sat_crossover_skip X pre rest :
  Forall (λ a, lit_defined X a ∧ lit_false X a) pre →
  sat_crossover X (pre ++ rest) = sat_crossover X rest.
Proof.
  induction 1 as [|a pre [Hd Hf] _ IH]; [done|].
  rewrite <- app_comm_cons, sat_crossover_cons.
  unfold lit_defined, lit_false in *. rewrite Hd, Hf. simpl.
  rewrite bool_decide_eq_false_2; [done|].
  by destruct (bool_decide (a > 0)).
Qed.

Lemma sat_crossover_true_inv X c :
  sat_crossover X c = Ok true →
  ∃ pre l post, c = pre ++ l :: post
    ∧ Forall (λ a, lit_defined X a ∧ lit_false X a) pre
    ∧ lit_defined X l ∧ lit_true X l.
Proof.
  induction c as [|atom rest IH]; [discriminate|].
  rewrite sat_crossover_cons. intros H.
  apply bind_Ok in H as (d & Hd & H). destruct d; simpl in H; [|discriminate].
  apply bind_Ok in H as (b & Hb & H).
  case_bool_decide as Hsign.
  - exists [], atom, rest. subst b. by repeat split.
  - destruct (IH H) as (pre & l & post & -> & Hpre & Hl).
    exists (atom :: pre), l, post. split; [done|]. split; [|done].
    constructor; [|done]. split; [done|].
    unfold lit_false. rewrite Hb. f_equal.
    by destruct b, (bool_decide (atom > 0)).
Qed.

(** C3 as stated fails: the second literal of the clause [(1, 2)] is defined
    and true, yet [sat_crossover] answers false, because it returns as soon as
    it meets the undefined variable 1. *)
Lemma sat_crossover_any_defined_literal_fails :
  let Z0 := mkIndividual [true; true] [false; true] false 0 in
  ¬ (sat_crossover Z0 [1; 2] = Ok true
     ↔ ∃ l, l ∈ [1; 2] ∧ lit_defined Z0 l ∧ lit_true Z0 l).
Proof.
  intros Z0 [_ H].
  assert (sat_crossover Z0 [1; 2] = Ok true) as Habs; [|discriminate Habs].
  apply H. exists 2. split; [set_solver|]. by split.
Qed.

(** C3, amended.  [sat_crossover(Z, c)] is true iff some literal of [c]
    evaluates true under Z's values with its variable defined, and every
    literal before it in [c] is defined (and evaluates false); a literal
    whose variable is undefined, reached after defined false literals, ends
    the scan with the answer false whatever the later literals are. *)
Theorem sat_crossover_first_undefined_stops (X : Individual) (c : clause) :
  (sat_crossover X c = Ok true
   ↔ ∃ pre l post, c = pre ++ l :: post
       ∧ Forall (λ a, lit_defined X a ∧ lit_false X a) pre
       ∧ lit_defined X l ∧ lit_true X l)
  ∧ (∀ pre l post, c = pre ++ l :: post →
       Forall (λ a, lit_defined X a ∧ lit_false X a) pre →
       lit_undefined X l →
       sat_crossover X c = Ok false).
Proof.
  split; [split|].
  - apply sat_crossover_true_inv.
  - intros (pre & l & post & -> & Hpre & Hd & Ht).
    rewrite sat_crossover_skip, sat_crossover_cons by done.
    unfold lit_defined, lit_true in *. rewrite Hd, Ht. simpl.
    by rewrite bool_decide_eq_true_2.
  - intros pre l post -> Hpre Hu.
    rewrite sat_crossover_skip, sat_crossover_cons by done.
    unfold lit_undefined in Hu. by rewrite Hu.
Qed.

(** The unit test of [sat_crossover] (scenario S2 of the spec). *)
Example test_sat_crossover_1 :
  sat_crossover (mkIndividual (replicate 9 true) (replicate 9 false) false 0)
                [9; -5] = Ok false.
Proof. reflexivity. Qed.

Example test_sat_crossover_2 :
  (Z1 <- set_defined
           (mkIndividual (replicate 9 true) (replicate 9 false) false 0) 9 ;;
   sat_crossover Z1 [9; -5]) = Ok true.
Proof. reflexivity. Qed.

(** ** Fitness and its cache *)

Lemma count_unsatisfied_ext f X Y :
  data X = data Y → count_unsatisfied f X = count_unsatisfied f Y.
Proof.
  intros Heq. unfold count_unsatisfied. generalize 0.
  induction f as [|c f IH]; simpl; intros acc; [done|].
  rewrite (sat_ext X Y c Heq). destruct (sat Y c); simpl; [apply IH | done].
Qed.

Lemma count_unsatisfied_total n f X :
  length (data X) = n → wf_cnf n f → ∃ a, count_unsatisfied f X = Ok a.
Proof.
  intros Hn Hf. unfold count_unsatisfied. generalize 0.
  induction Hf as [|c f Hc _ IH]; simpl; intros acc; [eauto|].
  destruct (sat_total n X c Hn Hc) as [b ->]. simpl. apply IH.
Qed.

(** The count lies between 0 and the number of clauses. *)
Lemma count_unsatisfied_bounds f X a :
  count_unsatisfied f X = Ok a → 0 ≤ a ≤ Z.of_nat (length f).
Proof.
  unfold count_unsatisfied.
  assert (∀ acc, for_each (λ n c, s <- sat X c ;;
                             Ok (if negb s then n + 1 else n)) f acc = Ok a →
                 acc ≤ a ≤ acc + Z.of_nat (length f)) as H; [|by apply H].
  induction f as [|c f IH]; simpl; intros acc Hrun.
  - inversion Hrun; lia.
  - apply bind_Ok in Hrun as (acc' & H1 & H2).
    apply bind_Ok in H1 as (s & _ & H1). inversion H1; subst.
    apply IH in H2. destruct s; simpl in H2; lia.
Qed.

Lemma evaluate_uncached f X :
  isCacheValid X = false → evaluate f X = count_unsatisfied f X.
Proof. unfold evaluate. by intros ->. Qed.

Lemma evaluate_cache_ok f X a :
  cache_ok f X → count_unsatisfied f X = Ok a → evaluate f X = Ok a.
Proof.
  unfold cache_ok, evaluate. intros Hc Ha.
  destruct (isCacheValid X); [|done]. rewrite Hc in Ha by done. done.
Qed.

(** What [evaluate] leaves behind differs from what it received in the cache
    only, and a second call returns what the first one did. *)
Lemma evaluate_store_transparent f X a :
  evaluate f X = Ok a →
  ∃ X', evaluate_store f X = Ok X'
        ∧ data X' = data X ∧ defined X' = defined X
        ∧ isCacheValid X' = true ∧ evaluate f X' = Ok a.
Proof.
  unfold evaluate, evaluate_store.
  destruct (isCacheValid X) eqn:Hv.
  - intros Ha. exists X. rewrite Hv. done.
  - intros ->. simpl. eexists. split; [done|]. simpl. done.
Qed.

Lemma evaluate_flipped f X v b :
  evaluate f (flipped X v b) = count_unsatisfied f (flipped X v b).
Proof. by apply evaluate_uncached. Qed.

(** [improvement] as a difference of two counts. *)
Lemma improvement_Ok n f X v a b bit :
  wf_individual n X → in_range n v →
  evaluate f X = Ok a →
  get X v = Ok bit →
  count_unsatisfied f (flipped X v bit) = Ok b →
  improvement f X v = Ok (a - b).
Proof.
  intros Hwf Hv Ha Hbit Hb. unfold improvement. rewrite Ha. simpl.
  destruct (evaluate_store_transparent f X a Ha)
    as (X1 & -> & Hd1 & Hf1 & _ & _). simpl.
  assert (wf_individual n X1) as Hwf1.
  { destruct Hwf. split; congruence. }
  rewrite Z.abs_eq by (unfold in_range in Hv; lia). unfold deepcopy.
  destruct (flip_Ok n X1 v Hwf1 Hv) as (bit1 & Hbit1 & ->). simpl.
  assert (bit1 = bit) as ->.
  { unfold get in *. rewrite Hd1 in Hbit1. congruence. }
  rewrite evaluate_flipped.
  rewrite (count_unsatisfied_ext f _ (flipped X v bit)) by (simpl; congruence).
  rewrite Hb. reflexivity.
Qed.

(** C7.  For a formula and an individual over [n] variables, with a coherent
    fitness cache, and a variable [v] in [1..n]: [improvement(X, v)] is
    [evaluate(X)] minus [evaluate] of [X] with [v] flipped, both being the
    counts of unsatisfied clauses; on the flipped individual it is the
    negation; and it is positive exactly when the flip lowers the number of
    unsatisfied clauses. *)
Theorem improvement_is_fitness_difference
    (n : nat) (f : cnf) (X : Individual) (v : Z) :
  wf_cnf n f → wf_individual n X → cache_ok f X → in_range n v →
  ∃ X' a b,
    flip X v = Ok X'
    ∧ count_unsatisfied f X = Ok a ∧ count_unsatisfied f X' = Ok b
    ∧ evaluate f X = Ok a ∧ evaluate f X' = Ok b
    ∧ improvement f X v = Ok (a - b)
    ∧ improvement f X' v = Ok (- (a - b))
    ∧ (0 < a - b ↔ b < a).
Proof.
  intros Hf Hwf Hcache Hv.
  destruct (flip_Ok n X v Hwf Hv) as (bit & Hbit & Hflip).
  pose proof (wf_flipped n X v bit Hwf) as Hwf'.
  destruct (count_unsatisfied_total n f X (proj1 Hwf) Hf) as [a Ha].
  destruct (count_unsatisfied_total n f (flipped X v bit) (proj1 Hwf') Hf)
    as [b Hb].
  exists (flipped X v bit), a, b.
  pose proof (evaluate_cache_ok f X a Hcache Ha) as Hea.
  assert (evaluate f (flipped X v bit) = Ok b) as Heb
    by (by rewrite evaluate_flipped).
  repeat split; try done; try lia.
  - by eapply improvement_Ok.
  - replace (- (a - b)) with (b - a) by lia.
    eapply (improvement_Ok n f (flipped X v bit) v b a (negb bit)); try done.
    + unfold get. simpl. apply read_bit_write_bit.
      destruct Hwf as [-> _]. done.
    + rewrite (count_unsatisfied_ext f _ X); [done|].
      by apply flipped_twice_data.
Qed.

Lemma improvement_is_fitness_difference_witness :
  ∃ X' a b,
    flip (ind_of [false; true]) 1 = Ok X'
    ∧ count_unsatisfied [[1; -2]; [2]] (ind_of [false; true]) = Ok a
    ∧ count_unsatisfied [[1; -2]; [2]] X' = Ok b
    ∧ evaluate [[1; -2]; [2]] (ind_of [false; true]) = Ok a
    ∧ evaluate [[1; -2]; [2]] X' = Ok b
    ∧ improvement [[1; -2]; [2]] (ind_of [false; true]) 1 = Ok (a - b)
    ∧ improvement [[1; -2]; [2]] X' 1 = Ok (- (a - b))
    ∧ (0 < a - b ↔ b < a).
Proof.
  apply (improvement_is_fitness_difference 2).
  - repeat constructor; simpl; lia.
  - split; reflexivity.
  - intros H; discriminate H.
  - unfold in_range. lia.
Defined.

(** The fixture of the unit tests ([examples/trivial.cnf] is not among the
    sources; scenario S4 of the spec is checked on a formula of the same
    shape). *)
Example test_improvement :
  improvement [[1; 2]; [-1; 3]] (ind_of [false; false; false]) 2 = Ok 1
  ∧ (X' <- flip (ind_of [false; false; false]) 2 ;;
     improvement [[1; 2]; [-1; 3]] X' 2) = Ok (-1).
Proof. split; reflexivity. Qed.

Lemma evaluate_total n f X :
  length (data X) = n → wf_cnf n f → ∃ a, evaluate f X = Ok a.
Proof.
  intros Hn Hf. unfold evaluate. destruct (isCacheValid X); [eauto|].
  by eapply count_unsatisfied_total.
Qed.

Lemma improvement_total n f X v :
  wf_cnf n f → wf_individual n X → in_range n v →
  ∃ d, improvement f X v = Ok d.
Proof.
  intros Hf Hwf Hv.
  destruct (evaluate_total n f X (proj1 Hwf) Hf) as [a Ha].
  destruct (flip_Ok n X v Hwf Hv) as (bit & Hbit & _).
  destruct (count_unsatisfied_total n f (flipped X v bit)
              (proj1 (wf_flipped n X v bit Hwf)) Hf) as [b Hb].
  exists (a - b). by eapply improvement_Ok.
Qed.

(** ** Corrective clause crossover *)

Lemma cc_scan_step_gain f x y st l :
  cc_scan_step f x y st l =
    (g <- combined_gain f x y l ;;
     if decide (g >= fst st) then Ok (g, Z.abs l) else Ok st).
Proof.
  unfold cc_scan_step, combined_gain.
  destruct (improvement f x (Z.abs l)); simpl; [|done].
  by destruct (improvement f y (Z.abs l)).
Qed.

Lemma combined_gain_total n f x y l :
  wf_cnf n f → wf_individual n x → wf_individual n y →
  in_range n (Z.abs l) →
  ∃ g, combined_gain f x y l = Ok g.
Proof.
  intros Hf Hx Hy Hl. unfold combined_gain.
  destruct (improvement_total n f x (Z.abs l) Hf Hx Hl) as [ix ->].
  destruct (improvement_total n f y (Z.abs l) Hf Hy Hl) as [iy ->].
  simpl. eauto.
Qed.

(** What the scan holds after a clause, started from [(M0, p0)]: either no
    literal reached [M0] and the state is untouched, or the state comes from
    the last literal whose gain is the greatest one. *)
Lemma cc_scan_from f x y (g : Z → Z) c : ∀ M0 p0,
  (∀ l, l ∈ c → combined_gain f x y l = Ok (g l)) →
  ∃ M p,
    for_each (cc_scan_step f x y) c (M0, p0) = Ok (M, p)
    ∧ M0 ≤ M
    ∧ (∀ l, l ∈ c → g l ≤ M)
    ∧ ((M = M0 ∧ p = p0 ∧ ∀ l, l ∈ c → g l < M0)
       ∨ (∃ pre l post, c = pre ++ l :: post ∧ g l = M ∧ p = Z.abs l
                        ∧ ∀ l', l' ∈ post → g l' < M)).
Proof.
  induction c as [|a c IH]; intros M0 p0 Hg.
  - exists M0, p0. simpl. repeat split; [lia | set_solver |].
    left. repeat split. set_solver.
  - simpl. rewrite cc_scan_step_gain, (Hg a) by set_solver. simpl.
    assert (∀ l, l ∈ c → combined_gain f x y l = Ok (g l)) as Hg'
      by (intros; apply Hg; set_solver).
    case_decide as Hcmp.
    + destruct (IH (g a) (Z.abs a) Hg') as (M & p & Hrun & Hle & Hall & Hlast).
      exists M, p. split; [done|]. split; [lia|]. split.
      { intros l [->|Hl]%elem_of_cons; [lia | auto]. }
      right. destruct Hlast as [(-> & -> & Hlt) | (pre & l & post & -> & ? & ? & ?)].
      * by exists [], a, c.
      * by exists (a :: pre), l, post.
    + destruct (IH M0 p0 Hg') as (M & p & Hrun & Hle & Hall & Hlast).
      exists M, p. split; [done|]. split; [lia|]. split.
      { intros l [->|Hl]%elem_of_cons; [lia | auto]. }
      destruct Hlast as [(-> & -> & Hlt) | (pre & l & post & -> & ? & ? & ?)].
      * left. repeat split.
        intros l [->|Hl]%elem_of_cons; [lia | auto].
      * right. by exists (a :: pre), l, post.
Qed.

Lemma cc_update_Ok n x z p :
  wf_individual n x → wf_individual n z → in_range n p →
  ∃ xb, get x p = Ok xb
        ∧ cc_update x z p = Ok (cc_written z p xb)
        ∧ get (cc_written z p xb) p = Ok (negb xb)
        ∧ get_defined (cc_written z p xb) p = Ok true.
Proof.
  intros [Hxd Hxf] [Hzd Hzf] Hp.
  destruct (read_bit_in_range (data x) p) as [xb Hxb]; [by rewrite Hxd|].
  exists xb. unfold cc_update, get, get_defined. rewrite Hxb. simpl.
  split; [done|]. split; [|split].
  - unfold set, set_defined, flip, get, set. simpl.
    rewrite !write_bit_Ok by (rewrite ?Hzd, ?Hzf; done). simpl.
    rewrite !write_bit_Ok by (rewrite ?length_insert, ?Hzd, ?Hzf; done). simpl.
    rewrite read_bit_write_bit by (rewrite ?Hzd; done). simpl.
    rewrite !write_bit_Ok by (rewrite ?length_insert, ?Hzd, ?Hzf; done). simpl.
    unfold cc_written. by rewrite !list_insert_insert_eq.
  - apply read_bit_write_bit. by rewrite Hzd.
  - apply read_bit_write_bit. by rewrite Hzf.
Qed.

Lemma wf_clause_elem n c l : wf_clause n c → l ∈ c → in_range n (Z.abs l).
Proof. unfold wf_clause. rewrite Forall_forall. auto. Qed.

(** Closed well-formedness goals. *)
Ltac solve_wf :=
  repeat first
    [ progress (unfold wf_cnf, wf_clause, wf_individual, in_range, cache_ok)
    | apply Forall_cons_2 | apply Forall_nil_2 | split
    | reflexivity | discriminate | (simpl; lia) | (intros; discriminate) ].

(** C5.  In [corrective_clause], for a clause satisfied by neither parent
    nor the partial child: the scan ends with the running maximum [M] of the
    combined gains (started at 0, compared with [>=]) and with [p] the
    variable of the last literal whose gain is [M]; exactly when [M] is
    strictly positive the child is updated, and it then has [p] defined with
    the complement of [x.get(p)]; otherwise the child is left as it was. *)
Theorem corrective_clause_picks_latest_maximum
    (n : nat) (f : cnf) (x y z : Individual) (c : clause) :
  wf_cnf n f → wf_individual n x → wf_individual n y → wf_individual n z →
  wf_clause n c →
  sat x c = Ok false → sat y c = Ok false → sat_crossover z c = Ok false →
  ∃ (g : Z → Z) (M p : Z),
    (∀ l, l ∈ c → combined_gain f x y l = Ok (g l))
    ∧ cc_scan f x y c = Ok (M, p)
    ∧ 0 ≤ M
    ∧ (∀ l, l ∈ c → g l ≤ M)
    ∧ ((M = 0 ∧ p = 0 ∧ ∀ l, l ∈ c → g l < 0)
       ∨ (∃ pre l post, c = pre ++ l :: post ∧ g l = M ∧ p = Z.abs l
                        ∧ ∀ l', l' ∈ post → g l' < M))
    ∧ (0 < M →
       ∃ xb, get x p = Ok xb
             ∧ cc_clause f x y z c = Ok (cc_written z p xb)
             ∧ get (cc_written z p xb) p = Ok (negb xb)
             ∧ get_defined (cc_written z p xb) p = Ok true)
    ∧ (¬ 0 < M → cc_clause f x y z c = Ok z).
Proof.
  intros Hf Hx Hy Hz Hc Hsx Hsy Hsz.
  set (g := λ l, match combined_gain f x y l with Ok v => v | Raise _ => 0 end).
  assert (∀ l, l ∈ c → combined_gain f x y l = Ok (g l)) as Hg.
  { intros l Hl. unfold g.
    destruct (combined_gain_total n f x y l Hf Hx Hy) as [v ->];
      [by eapply wf_clause_elem | done]. }
  destruct (cc_scan_from f x y g c 0 0 Hg) as (M & p & Hrun & HM & Hall & Hlast).
  exists g, M, p. fold (cc_scan f x y c) in Hrun.
  split; [done|]. split; [done|]. split; [done|]. split; [done|].
  split; [done|].
  unfold cc_clause. rewrite Hsx, Hsy, Hsz, Hrun. simpl. split.
  - intros Hpos. rewrite decide_True by lia.
    destruct Hlast as [(-> & _) | (pre & l & post & -> & _ & -> & _)]; [lia|].
    assert (in_range n (Z.abs l)) as Hp.
    { eapply wf_clause_elem; [done|]. set_solver. }
    destruct (cc_update_Ok n x z (Z.abs l) Hx Hz Hp) as (xb & ? & ? & ? & ?).
    by exists xb.
  - intros Hnonpos. rewrite decide_False by lia. done.
Qed.

Lemma corrective_clause_picks_latest_maximum_witness :
  let f := [[1; 2]] in
  let x := ind_of [false; false] in
  let y := ind_of [false; false] in
  let z := mkIndividual [false; false] [false; false] false 0 in
  let c := [1; 2] in
  ∃ (g : Z → Z) (M p : Z),
    (∀ l, l ∈ c → combined_gain f x y l = Ok (g l))
    ∧ cc_scan f x y c = Ok (M, p)
    ∧ 0 ≤ M
    ∧ (∀ l, l ∈ c → g l ≤ M)
    ∧ ((M = 0 ∧ p = 0 ∧ ∀ l, l ∈ c → g l < 0)
       ∨ (∃ pre l post, c = pre ++ l :: post ∧ g l = M ∧ p = Z.abs l
                        ∧ ∀ l', l' ∈ post → g l' < M))
    ∧ (0 < M →
       ∃ xb, get x p = Ok xb
             ∧ cc_clause f x y z c = Ok (cc_written z p xb)
             ∧ get (cc_written z p xb) p = Ok (negb xb)
             ∧ get_defined (cc_written z p xb) p = Ok true)
    ∧ (¬ 0 < M → cc_clause f x y z c = Ok z).
Proof.
  intros f x y z c.
  apply (corrective_clause_picks_latest_maximum 2); solve_wf.
Defined.

(** On that input both literals gain 2; the later one, variable 2, is
    chosen and the child receives the complement of [x]'s bit. *)
Example corrective_clause_tie :
  cc_scan [[1; 2]] (ind_of [false; false]) (ind_of [false; false]) [1; 2]
  = Ok (2, 2)
  ∧ cc_clause [[1; 2]] (ind_of [false; false]) (ind_of [false; false])
              (mkIndividual [false; false] [false; false] false 0) [1; 2]
    = Ok (mkIndividual [false; true] [false; true] false 0).
Proof. split; reflexivity. Qed.

(** A clause that a parent or the child already satisfies is skipped. *)
Lemma cc_clause_skip f x y z c :
  sat x c = Ok true
  ∨ (sat x c = Ok false ∧ sat y c = Ok true)
  ∨ (sat x c = Ok false ∧ sat y c = Ok false ∧ sat_crossover z c = Ok true) →
  cc_clause f x y z c = Ok z.
Proof.
  unfold cc_clause.
  intros [-> | [[-> ->] | (-> & -> & ->)]]; reflexivity.
Qed.

(** ** Fleurent and Ferland crossover *)

(** A clause that exactly one parent satisfies makes the operator raise
    [TypeError] at its first literal; a clause that both or neither satisfy
    leaves the child as it was. *)
Lemma ff_clause_cases x y z c sx sy :
  sat x c = Ok sx → sat y c = Ok sy →
  ff_clause x y z c = if bool_decide (sx = sy) then Ok z else Raise TypeError.
Proof.
  intros Hx Hy. unfold ff_clause. rewrite Hx. simpl.
  destruct sx; simpl; rewrite Hy; simpl.
  - destruct sy; simpl; [done|].
    destruct c as [|l c]; [discriminate Hx | reflexivity].
  - destruct sy; simpl; [|done].
    destruct c as [|l c]; [discriminate Hy | reflexivity].
Qed.

(** C6, on the code.  With the one-clause formula [(1)], [x] satisfying it
    and [y] not, the child should receive [x]'s value for variable 1; the
    operator raises [TypeError] instead, and so it does when the roles of the
    parents are exchanged. *)
Theorem fluerent_and_ferland_raises_TypeError :
  let z0 := mkIndividual [false] [false] false 0 in
  fluerent_and_ferland [[1]] (ind_of [true]) (ind_of [false]) z0
  = Raise TypeError
  ∧ fluerent_and_ferland [[1]] (ind_of [false]) (ind_of [true]) z0
    = Raise TypeError.
Proof. split; reflexivity. Qed.

(** X13.  On a formula whose literals name existing variables, the operator
    returns a child only when no clause separates the parents, and that child
    is [allocate] of the untouched [z0]; as soon as one clause is satisfied by
    exactly one parent it raises [TypeError]. *)
Lemma fluerent_and_ferland_Ok n f x y z0 :
  wf_cnf n f → length (data x) = n → length (data y) = n →
  (Forall (λ c, sat x c = sat y c) f
   → fluerent_and_ferland f x y z0 = Ok (allocate z0 x y))
  ∧ (Exists (λ c, sat x c ≠ sat y c) f
     → fluerent_and_ferland f x y z0 = Raise TypeError).
Proof.
  intros Hf Hx Hy. unfold fluerent_and_ferland.
  induction Hf as [|c f Hc Hf IH]; simpl.
  - split; [done|]. by intros ?%Exists_nil.
  - destruct (sat_total n x c Hx Hc) as [sx Hsx].
    destruct (sat_total n y c Hy Hc) as [sy Hsy].
    rewrite (ff_clause_cases x y z0 c sx sy Hsx Hsy).
    destruct IH as [IH1 IH2]. split.
    + intros [Heq Hall]%Forall_cons. rewrite Hsx, Hsy in Heq.
      rewrite bool_decide_eq_true_2 by congruence. simpl. auto.
    + intros [Hne | Hex]%Exists_cons.
      * rewrite bool_decide_eq_false_2 by congruence. done.
      * case_bool_decide; simpl; [auto | done].
Qed.

(** ** Weakest replacement *)

(** What [replace] does with a child that is an individual: the swap takes
    place exactly when the weakest member is not strictly worse than the
    child. *)
Lemma replace_cases self child weakest e_weakest e_child :
  max_by (evaluate (formula self)) (sub_population self) = Ok weakest →
  evaluate (formula self) weakest = Ok e_weakest →
  evaluate (formula self) child = Ok e_child →
  replace self (Some child) =
    if decide (e_weakest ≤ e_child) then
      remaining <- list_remove weakest (population self) ;;
      Ok (with_population self (remaining ++ [child]))
    else Ok self.
Proof.
  intros Hmax Hw Hc. unfold replace. rewrite Hmax. simpl.
  rewrite Hw. simpl. rewrite Hc. simpl.
  case_bool_decide; case_decide; try lia; simpl; [done|].
  by destruct (list_remove weakest (population self)).
Qed.

(** C2, on the code.  Formula [(1) (2)]; the weakest member of the
    sub-population leaves one clause unsatisfied.  A child that satisfies
    both clauses (fitness 0 < 1) is discarded and the population is left as
    it was; a child that satisfies neither (fitness 2 > 1) takes the place of
    the weakest member. *)
Theorem replace_keeps_worse_and_drops_better :
  let f := [[1]; [2]] in
  let fit := ind_of [true; true] in
  let weakest := ind_of [true; false] in
  let self := solver f [fit; weakest] [fit; weakest] in
  evaluate f weakest = Ok 1
  ∧ max_by (evaluate f) (sub_population self) = Ok weakest
  ∧ evaluate f (ind_of [true; true]) = Ok 0
  ∧ replace self (Some (ind_of [true; true])) = Ok self
  ∧ evaluate f (ind_of [false; false]) = Ok 2
  ∧ replace self (Some (ind_of [false; false]))
    = Ok (with_population self [fit; ind_of [false; false]]).
Proof. repeat split; reflexivity. Qed.

(** ** Tabu search: what the loop keeps *)

Lemma same_settings_refl self : same_settings self self.
Proof. by repeat split. Qed.

Lemma forced_flip_settings self i X d pos r :
  forced_flip self i X d pos = Ok r → same_settings self (fst r).
Proof.
  unfold forced_flip. case_decide as Hfree.
  - intros (X' & _ & H)%bind_Ok. inversion H; subst. by repeat split.
  - intros H. inversion H; subst. by repeat split.
Qed.

Lemma diversify_clause_keeps st i st' :
  diversify_clause st i = Ok st' →
  same_settings (ts_self st) (ts_self st') ∧ num_flips st' = num_flips st.
Proof.
  unfold diversify_clause. intros H.
  apply bind_Ok in H as (c & _ & H). apply bind_Ok in H as (s & _ & H).
  destruct s; [inversion H; subst; split; [apply same_settings_refl | done]|].
  apply bind_Ok in H as (count & _ & H).
  case_decide as Hmax.
  - apply bind_Ok in H as (value & _ & H).
    apply bind_Ok in H as (first & Hfirst & H).
    apply bind_Ok in H as (cascade & _ & H).
    inversion H; subst; simpl. split; [|done].
    apply forced_flip_settings in Hfirst.
    destruct Hfirst as (? & ? & ? & ?). by repeat split.
  - inversion H; subst; simpl. by repeat split.
Qed.

(** The ordinary move: what it does when the chosen position is not tabu.
    The position is flipped and the flip counted; [self.tabu] is what it
    was. *)
Lemma tabu_move_not_tabu st p alternatives st1 :
  p ∉ tabu (ts_self st) →
  tabu_move st (p, alternatives) = Ok st1 →
  flip (individual_in st) p = Ok (individual_in st1)
  ∧ num_flips st1 = num_flips st + 1
  ∧ tabu (ts_self st1) = tabu (ts_self st).
Proof.
  intros Hp. unfold tabu_move. simpl. rewrite decide_True by done.
  intros (temp & Hflip & H)%bind_Ok.
  apply bind_Ok in H as (e_temp & _ & H).
  apply bind_Ok in H as (e_best & _ & H).
  apply bind_Ok in H as (fb & _ & H).
  inversion H; subst; simpl. split; [done|]. split; [done|].
  by case_decide.
Qed.

Lemma tabu_move_keeps st index st1 :
  tabu_move st index = Ok st1 →
  same_settings (ts_self st) (ts_self st1)
  ∧ num_flips st1 = if decide (fst index ∉ tabu (ts_self st))
                    then num_flips st + 1 else num_flips st.
Proof.
  unfold tabu_move. case_decide as Htabu.
  - intros (temp & _ & H)%bind_Ok.
    apply bind_Ok in H as (e_temp & _ & H).
    apply bind_Ok in H as (e_best & _ & H).
    apply bind_Ok in H as (fb & _ & H).
    inversion H; subst; simpl. split; [|done].
    case_decide; [by repeat split | apply same_settings_refl].
  - intros H. inversion H; subst. split; [apply same_settings_refl | done].
Qed.

(** Every iteration that ends normally leaves [self.tabu] as it found it (no
    statement of the loop appends to the list), and counts one flip exactly
    when the chosen position is not in the list. *)
Lemma tabu_iteration_keeps choose_function calls st st' :
  tabu_iteration choose_function calls st = Ok st' →
  same_settings (ts_self st) (ts_self st')
  ∧ ∃ index,
      choose_function calls (ts_self st) (individual_in st) = Ok index
      ∧ num_flips st' = if decide (fst index ∉ tabu (ts_self st))
                        then num_flips st + 1 else num_flips st.
Proof.
  unfold tabu_iteration. intros H.
  apply bind_Ok in H as (index & Hindex & H).
  apply bind_Ok in H as (st1 & Hst1 & H).
  apply tabu_move_keeps in Hst1 as [Hset1 Hflips1].
  assert (same_settings (ts_self st) (ts_self st')
          ∧ num_flips st' = num_flips st1) as [Hset Hflips].
  { destruct (is_diversification (ts_self st)).
    - revert H.
      apply (for_each_invariant
               (λ s, same_settings (ts_self st) (ts_self s)
                     ∧ num_flips s = num_flips st1)); [|done].
      intros s i s' [(? & ? & ? & ?) ?] Hstep.
      apply diversify_clause_keeps in Hstep as [(? & ? & ? & ?) ?].
      repeat split; congruence.
    - by inversion H; subst. }
  split; [done|]. exists index. split; [done | congruence].
Qed.

Lemma tabu_continue_inv st :
  tabu_continue st = Ok true → max_flip (ts_self st) > num_flips st.
Proof.
  unfold tabu_continue. intros (e & _ & H)%bind_Ok.
  inversion H as [Hb]. apply andb_true_iff in Hb as [_ Hb].
  by apply bool_decide_eq_true in Hb.
Qed.

(** With an empty tabu list (the only value [self.tabu] ever has: the
    constructor sets it and nothing appends to it) every iteration counts a
    flip, so the loop ends within [max_flip] iterations. *)
Lemma tabu_loop_terminates choose_function : ∀ fuel calls st,
  tabu (ts_self st) = [] →
  max_flip (ts_self st) - num_flips st ≤ Z.of_nat fuel →
  ∃ r, tabu_loop (S fuel) choose_function calls st = Some r.
Proof.
  induction fuel as [|fuel IH]; intros calls st Htabu Hfuel.
  - simpl. destruct (tabu_continue st) as [[]|] eqn:Hc; [|eauto..].
    apply tabu_continue_inv in Hc. lia.
  - cbn [tabu_loop]. destruct (tabu_continue st) as [[]|] eqn:Hc; [|eauto..].
    destruct (tabu_iteration choose_function calls st) as [st'|] eqn:Hit;
      [|eauto].
    apply tabu_iteration_keeps in Hit
      as [(Ht & Hm & _ & _) (index & _ & Hn)].
    rewrite Htabu in Hn. rewrite decide_True in Hn by set_solver.
    apply IH; [congruence | lia].
Qed.

(** X16.  With an empty tabu list a descent of [max_flip + 1] iterations always
    comes to an end, with a result or an exception. *)
Lemma standard_tabu_terminates self individual choose_function :
  tabu self = [] →
  ∃ r, standard_tabu (S (Z.to_nat (max_flip self))) self individual
                     choose_function = Some r.
Proof.
  intros Htabu. unfold standard_tabu.
  destruct (tabu_loop_terminates choose_function
              (Z.to_nat (max_flip self)) 0 (tabu_init self individual))
    as [r ->].
  - simpl. rewrite Htabu. unfold slice_to. by case_decide; rewrite take_nil.
  - simpl. lia.
  - destruct r; eauto.
Qed.

(** Whenever [standard_tabu] returns, the value it returns is [None], and
    [self.tabu] holds the list found at entry, cut to [tabu_list_length]. *)
Lemma standard_tabu_returns_None fuel self individual choose_function r :
  standard_tabu fuel self individual choose_function = Some (Ok r) →
  fst r = None
  ∧ tabu (snd r) = slice_to (tabu self) (tabu_list_length self).
Proof.
  unfold standard_tabu.
  destruct (tabu_loop fuel choose_function 0 (tabu_init self individual))
    as [[st|]|] eqn:Hloop; [|discriminate..].
  intros [= <-]. split; [done|]. simpl.
  assert (∀ fuel calls s s',
            tabu_loop fuel choose_function calls s = Some (Ok s') →
            tabu (ts_self s') = tabu (ts_self s)) as Hkeep.
  { clear. induction fuel as [|fuel IH]; intros calls s s'; [discriminate|].
    simpl. destruct (tabu_continue s) as [[]|]; [|by intros [= ->]|discriminate].
    destruct (tabu_iteration choose_function calls s) as [s1|] eqn:Hit;
      [|discriminate].
    intros Hrest. apply IH in Hrest.
    apply tabu_iteration_keeps in Hit as [(Ht & _) _]. congruence. }
  by rewrite (Hkeep _ _ _ _ Hloop).
Qed.

(** ** Tabu search on concrete runs *)

(** C1, on the code.  Formula [(1) (2)], seed with both variables false.
    The descent flips variable 1, then variable 2, and [self.best] ends as
    the satisfying assignment; yet the value [standard_tabu] returns, which
    [gasat] binds to [child], is [None], and the [replace] that follows
    raises [AttributeError] on it. *)
Theorem standard_tabu_returns_no_individual :
  let f := [[1]; [2]] in
  let parent := ind_of [true; false] in
  let self := solver f [parent] [parent] in
  let seed := ind_of [false; false] in
  let choose := standard_tabu_choose choose_first in
  let found := flipped (flipped seed 1 false) 2 false in
  let self' := with_best self (Some found) in
  data found = [true; true]
  ∧ evaluate f found = Ok 0
  ∧ standard_tabu 11 self seed choose = Some (Ok (None, self'))
  ∧ gasat_refine 11 self seed choose choose = Some (Ok (None, self'))
  ∧ gasat_refine_replace 11 self seed choose choose
    = Some (Raise AttributeError).
Proof. repeat split; reflexivity. Qed.

(** C4, on the code.  Same formula and seed, tabu list empty with capacity
    5.  The choice function proposes variable 1, which is not tabu; the
    iteration flips it and counts the flip, and the tabu list is still empty
    afterwards: variable 1 has not been appended. *)
Theorem tabu_iteration_does_not_append :
  let f := [[1]; [2]] in
  let self := solver f [] [] in
  let seed := ind_of [false; false] in
  let choose := standard_tabu_choose choose_first in
  let st := tabu_init self seed in
  tabu (ts_self st) = [] ∧ tabu_list_length (ts_self st) = 5
  ∧ choose 0%nat (ts_self st) seed = Ok (1, [1; 2])
  ∧ ∃ st', tabu_iteration choose 0 st = Ok st'
           ∧ individual_in st' = flipped seed 1 false
           ∧ num_flips st' = 1
           ∧ tabu (ts_self st') = [].
Proof.
  repeat split. eexists. split; [reflexivity|]. repeat split.
Qed.

(** ** Diversification *)

(** The forced flip and the cascade of [standard_tabu] flip a position only
    when it is not a key of the forbidden map. *)
Lemma forced_flip_respects_forbidden self i X d pos self' X' d' :
  forced_flip self i X d pos = Ok (self', (X', d')) →
  (X' = X ∧ d' = d) ∨ (d !! pos = None ∧ flip X pos = Ok X').
Proof.
  unfold forced_flip. case_decide as Hfree.
  - intros (X1 & Hflip & H)%bind_Ok. inversion H; subst. by right.
  - intros H. inversion H; subst. by left.
Qed.

Lemma nested_flip_respects_forbidden f kk X d c X' d' :
  nested_flip f kk (X, d) c = Ok (X', d') →
  (X' = X ∧ d' = d) ∨ (∃ pos, d !! pos = None ∧ flip X pos = Ok X').
Proof.
  unfold nested_flip. simpl. intros (value & _ & H)%bind_Ok.
  case_decide as Hfree.
  - apply bind_Ok in H as (X1 & Hflip & H).
    apply bind_Ok in H as (d1 & _ & H). inversion H; subst. right. eauto.
  - inversion H; subst. by left.
Qed.

(** The aging loop of [standard_tabu] indexes the map with the numbers
    [0, 1, ...] as if they were keys: with a non-empty map in which 0 is not a
    key (keys are variables, numbered from 1) it raises [KeyError]. *)
Lemma age_forbidden_KeyError kk (d : gmap Z Z) :
  d ≠ ∅ → d !! 0 = None → age_forbidden kk d = Raise KeyError.
Proof.
  intros Hne H0. unfold age_forbidden, range.
  assert (size d ≠ 0%nat) as Hsize by (by intros ?%map_size_empty_inv).
  rewrite seqZ_cons by lia. simpl.
  unfold age_step, dict_get. by rewrite H0.
Qed.

(** What [check_flip] does with a chosen position that is a key of its map:
    below [k] it raises the counter and flips the position all the same; at
    [k] or above it drops the key and flips nothing. *)
Lemma check_flip_on_key f kk X (c : clause) (d : gmap Z Z) value count :
  max_by (λ l, improvement f X l) (filter (λ l, d !! l = None) c) = Ok value →
  d !! Z.abs value = Some count →
  check_flip f kk X c d =
    if decide (count < kk)
    then X' <- flip X (Z.abs value) ;; Ok (X', <[Z.abs value := count + 1]> d)
    else Ok (X, delete (Z.abs value) d).
Proof.
  intros Hmax Hkey. unfold check_flip. cbv zeta. rewrite Hmax. simpl.
  by rewrite Hkey.
Qed.

(** C8, on the code.  [check_flip] is given variable 1 in its map with
    counter 1 ([k = 5]) and the clause [(-1)].  The literal [-1] is not a key,
    so it passes the filter; its variable 1 is a key whose counter is below
    [k], and [check_flip] flips it and raises the counter to 2.  The
    same happens inside [tabu_with_diversification]: its second call flips
    back the variable the first call had just entered in the map. *)
Theorem check_flip_flips_forbidden_variable :
  let f := [[-1]] in
  let X := ind_of [true] in
  let X1 := flipped X 1 true in
  let X2 := flipped X1 1 false in
  check_flip f 5 X [-1] ∅ = Ok (X1, {[1 := 1]})
  ∧ ({[1 := 1]} : gmap Z Z) !! 1 = Some 1
  ∧ check_flip f 5 X1 [-1] {[1 := 1]} = Ok (X2, {[1 := 2]})
  ∧ data X1 = [false] ∧ data X2 = [true]
  ∧ tabu_with_diversification (diversifying f) X = Ok (X2, diversifying f).
Proof. repeat split; reflexivity. Qed.

(** ** The empty choice set *)

(** The list the code takes its maximum of keeps a literal when the signed
    literal is not a key of the map.  When that list is empty, the step
    raises the [ValueError] of [max] on an empty sequence, in [check_flip]
    and in the cascade inlined in [standard_tabu] alike. *)
Lemma empty_choice_list_raises f kk individual (d : gmap Z Z) (c : clause) :
  filter (λ l, d !! l = None) c = [] →
  check_flip f kk individual c d = Raise ValueError
  ∧ nested_flip f kk (individual, d) c = Raise ValueError.
Proof.
  intros Hempty. split.
  - unfold check_flip. by rewrite Hempty.
  - unfold nested_flip. simpl. by rewrite Hempty.
Qed.

(** The keys of the map are variables ([pos = abs(value)]), so a negative
    literal is never among them: the code's list is empty only for a clause
    of positive literals, all of them keys. *)
Lemma empty_choice_list_positive (d : gmap Z Z) (c : list Z) :
  (∀ v, is_Some (d !! v) → 0 < v) →
  filter (λ l, d !! l = None) c = [] ↔
  Forall (λ l, 0 < l ∧ is_Some (d !! l)) c.
Proof.
  intros Hkeys. induction c as [|l c IH]; [done|].
  rewrite Forall_cons. destruct (decide (d !! l = None)) as [Hl|Hl].
  - rewrite filter_cons_True by done. split; [done|].
    intros [[_ [v Hv]] _]. congruence.
  - rewrite filter_cons_False by done. rewrite IH.
    apply not_eq_None_Some in Hl. split; [|tauto].
    intros Hc. split; [|done]. split; [auto|done].
Qed.

(** C9, on the code.  A clause all of whose variables are in the forbidden
    map has no literal left to choose, yet neither place raises the error of
    [max] on an empty sequence when the clause holds a negative literal:
    the signed literal is not a key and stays in the list.

    In [standard_tabu] on the formula [(-2) (1)] from the seed 01, the
    ordinary move flips variable 1, the clause [(-2)] stumbles, variable 2 is
    forced and entered in the map, and the cascade meets [(-2)] again: the
    step returns with nothing changed and goes on to [(1)], where the flip of
    variable 1 is followed by the [KeyError] of the aging loop.  The caller
    receives that [KeyError].

    In [tabu_with_diversification] on the formula [(-1) (-2)] from 11, the
    second call of [check_flip] meets [(-1)] with variable 1 in the map: it
    flips the variable back, and so does the last call for variable 2.  The
    caller receives an individual. *)
Theorem forbidden_clause_raises_no_error :
  let f := [[-2]; [1]] in
  let seed := ind_of [false; true] in
  let moved := flipped seed 1 false in
  let forced := flipped moved 2 true in
  let d : gmap Z Z := {[2 := 0]} in
  let g := [[-1]; [-2]] in
  let X := ind_of [true; true] in
  let X1 := flipped X 1 true in
  let d1 : gmap Z Z := {[1 := 1]} in
  Forall (λ l, is_Some (d !! Z.abs l)) [-2]
  ∧ nested_flip f 5 (forced, d) [-2] = Ok (forced, d)
  ∧ nested_flip f 5 (forced, d) [1] = Raise KeyError
  ∧ cascade_round f 5 [-2] moved (forced, d) 0 = Raise KeyError
  ∧ standard_tabu 11 (diversifying f) seed (standard_tabu_choose choose_first)
    = Some (Raise KeyError)
  ∧ Forall (λ l, is_Some (d1 !! Z.abs l)) [-1]
  ∧ check_flip g 5 X1 [-1] d1 = Ok (flipped X1 1 false, {[1 := 2]})
  ∧ ∃ r, tabu_with_diversification (diversifying g) X = Ok r
         ∧ data (fst r) = [true; true].
Proof.
  intros f seed moved forced d g X X1 d1.
  split; [by repeat constructor|]. split; [reflexivity|].
  split; [reflexivity|]. split; [reflexivity|]. split; [reflexivity|].
  split; [by repeat constructor|]. split; [reflexivity|].
  eexists. split; reflexivity.
Qed.

(** Nothing between the raising step and the caller of the method
    intercepts an exception: the cascade round, the loop over the clauses,
    the iteration, the [while] loop and [standard_tabu] itself end with the
    exception their inner step raised. *)
Lemma cascade_round_raise f kk c individual st n l e :
  comprehension (λ _ : clause,
                   a <- sat (fst st) c ;;
                   if a then b <- sat individual c ;; Ok (negb b)
                   else Ok false) f = Ok l →
  for_each (nested_flip f kk) l st = Raise e →
  cascade_round f kk c individual st n = Raise e.
Proof. unfold cascade_round. intros -> Hl. simpl. exact Hl. Qed.

Lemma diversify_clause_raise st i c count value first e :
  list_get (formula (ts_self st)) i = Ok c →
  sat (individual_in st) c = Ok false →
  list_get (false_counts (ts_self st)) i = Ok count →
  count + 1 = max_false (ts_self st) →
  max_by (λ l, improvement (formula (ts_self st)) (individual_in st) (Z.abs l))
         c = Ok value →
  forced_flip (with_false_counts (ts_self st)
                 (<[i := count + 1]> (false_counts (ts_self st))))
              i (deepcopy (individual_in st)) (forbidden_flips st)
              (Z.abs value) = Ok first →
  for_each (cascade_round (formula (ts_self st)) (k (ts_self st)) c
                          (individual_in st))
           (range (rec (ts_self st))) (snd first) = Raise e →
  diversify_clause st i = Raise e.
Proof.
  intros Hc Hs Hcount Hmax Hvalue Hfirst Hcascade. unfold diversify_clause.
  rewrite Hc. simpl. rewrite Hs. simpl. rewrite Hcount. simpl.
  rewrite decide_True by done. rewrite Hvalue. simpl.
  rewrite Hfirst. simpl. by rewrite Hcascade.
Qed.

Lemma tabu_iteration_raise choose_function calls st index st1 e :
  choose_function calls (ts_self st) (individual_in st) = Ok index →
  tabu_move st index = Ok st1 →
  is_diversification (ts_self st) = true →
  for_each diversify_clause (seq 0 (length (formula (ts_self st)))) st1
  = Raise e →
  tabu_iteration choose_function calls st = Raise e.
Proof.
  intros Hindex Hmove Hdiv Hscan. unfold tabu_iteration.
  rewrite Hindex. simpl. rewrite Hmove. simpl. by rewrite Hdiv.
Qed.

Lemma tabu_loop_raise choose_function fuel calls st e :
  tabu_continue st = Ok true →
  tabu_iteration choose_function calls st = Raise e →
  tabu_loop (S fuel) choose_function calls st = Some (Raise e).
Proof. simpl. by intros -> ->. Qed.

Lemma tabu_loop_raise_later choose_function fuel calls st st' e :
  tabu_continue st = Ok true →
  tabu_iteration choose_function calls st = Ok st' →
  tabu_loop fuel choose_function (S calls) st' = Some (Raise e) →
  tabu_loop (S fuel) choose_function calls st = Some (Raise e).
Proof. simpl. by intros -> ->. Qed.

Lemma standard_tabu_raise fuel self individual choose_function e :
  tabu_loop fuel choose_function 0 (tabu_init self individual)
  = Some (Raise e) →
  standard_tabu fuel self individual choose_function = Some (Raise e).
Proof. unfold standard_tabu. by intros ->. Qed.

Lemma gasat_refine_replace_raise fuel self child c1 c2 e :
  gasat_refine fuel self child c1 c2 = Some (Raise e) →
  gasat_refine_replace fuel self child c1 c2 = Some (Raise e).
Proof. unfold gasat_refine_replace. by intros ->. Qed.

Lemma twd_clause_raise self individual st c e :
  check_flip (formula self) (k self) (fst st) c (snd st) = Raise e →
  twd_clause self individual st c = Raise e.
Proof. unfold twd_clause. by intros ->. Qed.

Lemma tabu_with_diversification_raise self individual st pre c post r e :
  for_each (stumble_step individual) (seq 0 (length (formula self))) (self, [])
  = Ok st →
  snd st = pre ++ c :: post →
  for_each (twd_clause (fst st) individual) pre (deepcopy individual, ∅)
  = Ok r →
  twd_clause (fst st) individual r c = Raise e →
  tabu_with_diversification self individual = Raise e.
Proof.
  intros Hst Hsplit Hpre Hc. unfold tabu_with_diversification.
  rewrite Hst. simpl. rewrite Hsplit.
  by rewrite (for_each_raise _ pre c post _ r e Hpre Hc).
Qed.

(** Two runs that reach an empty choice set.  In [standard_tabu], formula
    [(2) (1) (1)]: the ordinary move flips variable 1, the clause [(2)]
    stumbles and variable 2 is forced and entered in the map, and the cascade
    then meets [(2)] with nothing left to choose.  In
    [tabu_with_diversification], formula [(1) (-1)]. *)
Example empty_choice_set_reaches_the_caller :
  let choose := standard_tabu_choose choose_first in
  standard_tabu 11 (diversifying [[2]; [1]; [1]]) (ind_of [false; false])
                choose
  = Some (Raise ValueError)
  ∧ gasat_refine_replace 11 (diversifying [[2]; [1]; [1]])
                         (ind_of [false; false]) choose choose
    = Some (Raise ValueError)
  ∧ tabu_with_diversification (diversifying [[1]; [-1]]) (ind_of [false])
    = Raise ValueError.
Proof. repeat split; reflexivity. Qed.

(** ** The child stays well formed *)

Lemma set_lengths X v b X' :
  set X v b = Ok X' →
  length (data X') = length (data X)
  ∧ length (defined X') = length (defined X).
Proof.
  unfold set, write_bit. intros (d & Hd & H)%bind_Ok.
  apply bind_Ok in H as (g & Hg & H).
  apply bind_Ok in Hd as (? & _ & Hd). apply bind_Ok in Hg as (? & _ & Hg).
  inversion Hd; inversion Hg; inversion H; subst; simpl.
  by rewrite !length_insert.
Qed.

Lemma set_defined_lengths X v X' :
  set_defined X v = Ok X' →
  length (data X') = length (data X)
  ∧ length (defined X') = length (defined X).
Proof.
  unfold set_defined, write_bit. intros (g & Hg & H)%bind_Ok.
  apply bind_Ok in Hg as (? & _ & Hg).
  inversion Hg; inversion H; subst; simpl. by rewrite length_insert.
Qed.

Lemma flip_lengths X v X' :
  flip X v = Ok X' →
  length (data X') = length (data X)
  ∧ length (defined X') = length (defined X).
Proof. unfold flip. intros (b & _ & H)%bind_Ok. by eapply set_lengths. Qed.

(** Every iteration of the clause loop of [corrective_clause] hands a child
    with [n] variables to the next one. *)
Lemma cc_clause_wf n f x y z c z' :
  wf_individual n z → cc_clause f x y z c = Ok z' → wf_individual n z'.
Proof.
  intros Hz. unfold cc_clause. intros (sx & _ & H)%bind_Ok.
  destruct sx; [by inversion H; subst|].
  apply bind_Ok in H as (sy & _ & H). destruct sy; [by inversion H; subst|].
  apply bind_Ok in H as (sz & _ & H). destruct sz; [by inversion H; subst|].
  apply bind_Ok in H as (st & _ & H).
  case_decide; [|by inversion H; subst].
  unfold cc_update in H. apply bind_Ok in H as (xb & _ & H).
  apply bind_Ok in H as (z1 & H1%set_lengths & H).
  apply bind_Ok in H as (z2 & H2%set_defined_lengths & H3%flip_lengths).
  destruct Hz as [Hd Hf]. split; lia.
Qed.

Lemma corrective_clause_loop_wf n f x y : ∀ cs z z',
  wf_individual n z → for_each (cc_clause f x y) cs z = Ok z' →
  wf_individual n z'.
Proof.
  intros cs z z' Hz. revert Hz.
  apply (for_each_invariant (wf_individual n)).
  intros s a s' Hs Hstep. by eapply cc_clause_wf.
Qed.

(** ** The fitness cache stays coherent *)

(** Every mutator leaves the cache invalid, and [evaluate] fills it with the
    count: an individual built by these operations never carries a stale
    fitness. *)
Lemma cache_ok_mutated f X X' :
  (∃ v b, set X v b = Ok X') ∨ (∃ v, flip X v = Ok X')
  ∨ (∃ v, set_defined X v = Ok X') ∨ (∃ x y, X' = allocate X x y) →
  cache_ok f X'.
Proof.
  assert (∀ v b, set X v b = Ok X' → isCacheValid X' = false) as Hset.
  { intros v b (d & _ & H)%bind_Ok. apply bind_Ok in H as (g & _ & H).
    by inversion H. }
  intros H Hvalid. exfalso.
  destruct H as [(v & b & H) | [(v & H) | [(v & H) | (x & y & ->)]]].
  - apply Hset in H. congruence.
  - apply bind_Ok in H as (b & _ & H). apply Hset in H. congruence.
  - apply bind_Ok in H as (g & _ & H). inversion H; subst. discriminate.
  - discriminate.
Qed.

Lemma cache_ok_evaluated f X X' :
  cache_ok f X → evaluate_store f X = Ok X' → cache_ok f X'.
Proof.
  unfold evaluate_store. intros Hok.
  destruct (isCacheValid X) eqn:Hv; [by intros [= <-]|].
  intros (n & Hn & H)%bind_Ok. inversion H; subst. intros _. simpl.
  rewrite <- Hn. by apply count_unsatisfied_ext.
Qed.

(** After [allocate] every variable of the child is defined. *)
Lemma allocate_complete z x y : Forall (λ d, d = true) (defined (allocate z x y)).
Proof. simpl. by apply Forall_replicate. Qed.

Lemma corrective_clause_complete f x y z0 z :
  corrective_clause f x y z0 = Ok z → Forall (λ d, d = true) (defined z).
Proof.
  unfold corrective_clause. intros (st & _ & H)%bind_Ok.
  inversion H; subst. apply allocate_complete.
Qed.

(** * Further properties of the code *)

(** ** What [sat], [sat_crossover] and [degree] compute *)

(** One unfolding of [sat], with both signs of the atom put together. *)
Lemma sat_cons X atom rest :
  sat X (atom :: rest) =
    (h <- lit_holds X atom ;; if h then Ok true else sat X rest).
Proof.
  simpl. unfold lit_holds. case_decide as Hs.
  - rewrite Z.abs_eq by lia. rewrite bool_decide_eq_true_2 by done.
    by destruct (get X atom) as [[]|].
  - rewrite bool_decide_eq_false_2 by done.
    by destruct (get X (Z.abs atom)) as [[]|].
Qed.

Lemma lit_holds_total n X l :
  length (data X) = n → in_range n (Z.abs l) → ∃ h, lit_holds X l = Ok h.
Proof.
  intros Hn Hl. unfold lit_holds, get.
  destruct (read_bit_in_range (data X) (Z.abs l)) as [b ->]; [by rewrite Hn|].
  simpl. eauto.
Qed.

(** X1.  On a clause whose variables exist, [sat] answers true exactly when some
    literal of the clause evaluates true under the stored values. *)
Theorem sat_iff_some_literal_holds (n : nat) (X : Individual) (c : clause) :
  length (data X) = n → wf_clause n c →
  (sat X c = Ok true ↔ ∃ l, l ∈ c ∧ lit_holds X l = Ok true)
  ∧ (sat X c = Ok false ↔ ∀ l, l ∈ c → lit_holds X l = Ok false).
Proof.
  intros Hn Hc. induction Hc as [|a c Ha Hc IH].
  - simpl. split; split; try done.
    + intros (l & Hl & _). by apply elem_of_nil in Hl.
    + intros _ l Hl. by apply elem_of_nil in Hl.
  - rewrite sat_cons. destruct (lit_holds_total n X a Hn Ha) as [h Hh].
    rewrite Hh. simpl. destruct IH as [[IHt1 IHt2] [IHf1 IHf2]]. destruct h.
    + split; split; try done.
      * intros _. exists a. split; [by apply elem_of_cons; left | done].
      * intros Hall. rewrite (Hall a) in Hh; [done|].
        by apply elem_of_cons; left.
    + split; split.
      * intros (l & Hl & Hhl)%IHt1. exists l.
        split; [by apply elem_of_cons; right | done].
      * intros (l & [->|Hl]%elem_of_cons & Hhl); [congruence|].
        apply IHt2. eauto.
      * intros Hsat l [->|Hl]%elem_of_cons; [done|]. by apply IHf1.
      * intros Hall. apply IHf2. intros l Hl. apply Hall.
        by apply elem_of_cons; right.
Qed.

Lemma sat_iff_some_literal_holds_witness :
  (sat (ind_of [false; true]) [1; -2; 2] = Ok true
   ↔ ∃ l, l ∈ [1; -2; 2] ∧ lit_holds (ind_of [false; true]) l = Ok true)
  ∧ (sat (ind_of [false; true]) [1; -2; 2] = Ok false
     ↔ ∀ l, l ∈ [1; -2; 2] → lit_holds (ind_of [false; true]) l = Ok false).
Proof. apply (sat_iff_some_literal_holds 2); solve_wf. Defined.

Lemma sat_true_intro n X c l :
  length (data X) = n → wf_clause n c →
  l ∈ c → lit_holds X l = Ok true → sat X c = Ok true.
Proof.
  intros Hn Hc. induction Hc as [|a c Ha _ IH]; intros Hl Hh.
  - by apply elem_of_nil in Hl.
  - rewrite sat_cons. destruct (lit_holds_total n X a Hn Ha) as [h Hha].
    rewrite Hha. simpl. destruct h; [done|].
    apply elem_of_cons in Hl as [->|Hl]; [congruence | auto].
Qed.

(** X2.  A clause that holds a variable together with its negation is satisfied
    by every individual. *)
Theorem sat_tautological_clause (n : nat) (X : Individual) (c : clause) (v : Z) :
  length (data X) = n → wf_clause n c → v ∈ c → - v ∈ c → v ≠ 0 →
  sat X c = Ok true.
Proof.
  intros Hn Hc Hv Hnv Hv0.
  pose proof (wf_clause_elem n c v Hc Hv) as Hr.
  destruct (read_bit_in_range (data X) (Z.abs v)) as [b Hb]; [by rewrite Hn|].
  assert (lit_holds X v = Ok (bool_decide (b = bool_decide (v > 0)))) as H1.
  { unfold lit_holds, get. by rewrite Hb. }
  assert (lit_holds X (- v)
          = Ok (bool_decide (b = bool_decide (- v > 0)))) as H2.
  { unfold lit_holds, get. rewrite Z.abs_opp. by rewrite Hb. }
  destruct (decide (v > 0)) as [Hpos|Hneg].
  - rewrite (bool_decide_eq_true_2 (v > 0)) in H1 by done.
    rewrite (bool_decide_eq_false_2 (- v > 0)) in H2 by lia.
    destruct b;
      [by apply (sat_true_intro n X c v) | by apply (sat_true_intro n X c (- v))].
  - rewrite (bool_decide_eq_false_2 (v > 0)) in H1 by done.
    rewrite (bool_decide_eq_true_2 (- v > 0)) in H2 by lia.
    destruct b;
      [by apply (sat_true_intro n X c (- v)) | by apply (sat_true_intro n X c v)].
Qed.

Lemma sat_tautological_clause_witness :
  sat (ind_of [false; true; false]) [3; -2; 2] = Ok true.
Proof.
  apply (sat_tautological_clause 3 _ _ 2); try solve_wf; set_solver.
Defined.

(** X3.  Whatever [sat_crossover] accepts, [sat] accepts. *)
Theorem sat_crossover_implies_sat (X : Individual) (c : clause) :
  sat_crossover X c = Ok true → sat X c = Ok true.
Proof.
  intros (pre & l & post & -> & Hpre & _ & Ht)%sat_crossover_true_inv.
  induction Hpre as [|a pre [_ Hf] _ IH]; simpl app; rewrite sat_cons.
  - unfold lit_true in Ht. unfold lit_holds. rewrite Ht. simpl.
    by rewrite bool_decide_eq_true_2.
  - unfold lit_false in Hf. unfold lit_holds. rewrite Hf. simpl.
    rewrite bool_decide_eq_false_2; [done|].
    by destruct (bool_decide (a > 0)).
Qed.

Lemma sat_crossover_implies_sat_witness :
  sat (mkIndividual [false; true] [true; true] false 0) [1; 2] = Ok true.
Proof. by apply sat_crossover_implies_sat. Defined.

(** X4.  On a clause all of whose variables are defined the two predicates
    agree, errors included. *)
Theorem sat_crossover_on_defined_clause (X : Individual) (c : clause) :
  (∀ l, l ∈ c → lit_defined X l) → sat_crossover X c = sat X c.
Proof.
  induction c as [|a c IH]; intros Hdef; [done|].
  rewrite sat_crossover_cons, sat_cons.
  pose proof (Hdef a ltac:(set_solver)) as Ha. unfold lit_defined in Ha.
  rewrite Ha. simpl. unfold lit_holds.
  destruct (get X (Z.abs a)) as [b|]; simpl; [|done].
  rewrite IH; [done|]. intros l Hl. apply Hdef. set_solver.
Qed.

Lemma sat_crossover_on_defined_clause_witness :
  sat_crossover (ind_of [false; true]) [1; -2] = sat (ind_of [false; true]) [1; -2].
Proof.
  apply sat_crossover_on_defined_clause.
  intros l Hl. repeat (apply elem_of_cons in Hl as [->|Hl]); try reflexivity.
  by apply elem_of_nil in Hl.
Defined.

Lemma degree_from X c : ∀ acc l,
  for_each (degree_step X) c acc = Ok l →
  ∃ found, l = acc ++ found
           ∧ (length found ≤ length c)%nat
           ∧ sat X c = Ok (bool_decide (found ≠ [])).
Proof.
  induction c as [|a c IH]; simpl for_each; intros acc l Hrun.
  - inversion Hrun; subst. exists []. by rewrite app_nil_r.
  - apply bind_Ok in Hrun as (acc' & Hstep & Hrun).
    destruct (IH _ _ Hrun) as (found & -> & Hlen & Hsat).
    rewrite sat_cons. unfold lit_holds.
    assert (∃ b, get X (Z.abs a) = Ok b
                 ∧ acc' = if bool_decide (b = bool_decide (a > 0))
                          then acc ++ [a] else acc) as (b & Hb & ->).
    { unfold degree_step in Hstep. case_decide as Hs.
      - rewrite Z.abs_eq by lia.
        apply bind_Ok in Hstep as (b & Hb & Hstep). exists b. split; [done|].
        rewrite (bool_decide_eq_true_2 (a > 0)) by done.
        inversion Hstep; subst. by destruct b.
      - apply bind_Ok in Hstep as (b & Hb & Hstep). exists b. split; [done|].
        rewrite (bool_decide_eq_false_2 (a > 0)) by done.
        inversion Hstep; subst. by destruct b. }
    rewrite Hb. simpl. destruct (bool_decide (b = bool_decide (a > 0))).
    + exists (a :: found). split; [by rewrite <- app_assoc|].
      split; [simpl; lia|]. by rewrite bool_decide_eq_true_2.
    + exists found. split; [done|]. split; [simpl; lia | done].
Qed.

(** X5.  Whenever [degree] returns, its value lies between 0 and the length of
    the clause, and [sat] is true exactly when the degree is positive. *)
Theorem degree_positive_iff_sat (X : Individual) (c : clause) (d : Z) :
  degree X c = Ok d →
  0 ≤ d ≤ Z.of_nat (length c) ∧ sat X c = Ok (bool_decide (0 < d)).
Proof.
  unfold degree. intros (l & Hl & Hd)%bind_Ok. inversion Hd; subst.
  apply degree_from in Hl as (found & -> & Hlen & Hsat). simpl.
  split; [lia|]. rewrite Hsat. f_equal.
  destruct found; [done|].
  rewrite (bool_decide_eq_true_2 (_ ≠ [])) by done.
  by rewrite bool_decide_eq_true_2 by (simpl; lia).
Qed.

Lemma degree_positive_iff_sat_witness :
  0 ≤ 2 ≤ Z.of_nat (length [7; 8; -3])
  ∧ sat (ind_of [false;false;true;false;false;false;true;true;false]) [7; 8; -3]
    = Ok (bool_decide (0 < 2)).
Proof.
  apply (degree_positive_iff_sat
           (ind_of [false;false;true;false;false;false;true;true;false])
           [7; 8; -3] 2).
  reflexivity.
Defined.

(** The inputs of the unit test of [degree].  A negative literal counts when
    its variable is false, so the values are 1, 1 and 2 (the test file, which
    imports another copy of the module, expects 0, 1 and 3). *)
Example degree_on_test_inputs :
  degree (ind_of [true;false;false;true;false;false;false;false;false]) [9; -5]
  = Ok 1
  ∧ degree (ind_of [true;false;false;true;false;false;false;false;false])
           [1; 3; 6] = Ok 1
  ∧ degree (ind_of [false;false;true;false;false;false;true;true;false])
           [7; 8; -3] = Ok 2.
Proof. repeat split; reflexivity. Qed.

(** ** Fitness *)

Lemma count_from_spec (X : Individual) (f : cnf) : ∀ acc a,
  for_each (λ n c, s <- sat X c ;; Ok (if negb s then n + 1 else n)) f acc
  = Ok a →
  acc ≤ a ∧ (a = acc ↔ Forall (λ c, sat X c = Ok true) f).
Proof.
  induction f as [|c f IH]; simpl; intros acc a Hrun.
  - inversion Hrun; subst. split; [lia|]. split; [constructor | done].
  - apply bind_Ok in Hrun as (acc' & Hstep & Hrun).
    apply bind_Ok in Hstep as (s & Hs & Hstep). inversion Hstep; subst.
    destruct (IH _ _ Hrun) as [Hle [Hiff1 Hiff2]]. destruct s; simpl in *.
    + split; [lia|]. split.
      * intros Ha. constructor; [done | by apply Hiff1].
      * intros [_ Hall]%Forall_cons. by apply Hiff2.
    + split; [lia|]. split; [lia|].
      intros [Habs _]%Forall_cons. congruence.
Qed.

Lemma count_all_satisfied (X : Individual) (f : cnf) :
  Forall (λ c, sat X c = Ok true) f → count_unsatisfied f X = Ok 0.
Proof.
  intros Hall. unfold count_unsatisfied. generalize 0.
  induction Hall as [|c f Hc _ IH]; intros acc; simpl; [done|].
  rewrite Hc. simpl. apply IH.
Qed.

(** X6.  For an individual whose cache is coherent, [evaluate] returns 0 exactly
    when [sat] accepts every clause of the formula. *)
Theorem evaluate_zero_iff_all_satisfied (f : cnf) (X : Individual) :
  cache_ok f X →
  (evaluate f X = Ok 0 ↔ Forall (λ c, sat X c = Ok true) f).
Proof.
  intros Hcache. split.
  - intros Hev.
    assert (count_unsatisfied f X = Ok 0) as Hcount.
    { unfold evaluate in Hev. unfold cache_ok in Hcache.
      destruct (isCacheValid X); [|done].
      inversion Hev as [Hfit]. rewrite Hcache by done. by rewrite Hfit. }
    by apply count_from_spec in Hcount as [_ [Hall _]]; apply Hall.
  - intros Hall. apply evaluate_cache_ok; [done|].
    by apply count_all_satisfied.
Qed.

Lemma evaluate_zero_iff_all_satisfied_witness :
  evaluate [[1; 2]; [-1]] (ind_of [false; true]) = Ok 0
  ↔ Forall (λ c, sat (ind_of [false; true]) c = Ok true) [[1; 2]; [-1]].
Proof. apply evaluate_zero_iff_all_satisfied. solve_wf. Defined.

(** X8.  Whatever the state of the cache, the first call of [evaluate] changes
    nothing of the individual but its cache, a second call returns what the
    first one returned, and it leaves the individual as the first call left
    it. *)
Theorem evaluate_is_memoised (f : cnf) (X X' : Individual) (a : Z) :
  evaluate f X = Ok a → evaluate_store f X = Ok X' →
  data X' = data X ∧ defined X' = defined X
  ∧ evaluate f X' = Ok a ∧ evaluate_store f X' = Ok X'.
Proof.
  intros Hev Hstore.
  destruct (evaluate_store_transparent f X a Hev)
    as (X1 & HX1 & Hd & Hf & Hvalid & Hev1).
  assert (X1 = X') as -> by congruence.
  split; [done|]. split; [done|]. split; [done|].
  unfold evaluate_store. by rewrite Hvalid.
Qed.

Lemma evaluate_is_memoised_witness :
  let X := ind_of [true; false] in
  let X' := mkIndividual [true; false] [true; true] true 1 in
  data X' = data X ∧ defined X' = defined X
  ∧ evaluate [[1]; [2]] X' = Ok 1 ∧ evaluate_store [[1]; [2]] X' = Ok X'.
Proof.
  intros X X'. apply (evaluate_is_memoised [[1]; [2]] X X' 1); reflexivity.
Defined.

Lemma read_bit_insert_other bits v u b :
  1 ≤ v → u ≠ v →
  read_bit (<[Z.to_nat (v - 1) := b]> bits) u = read_bit bits u.
Proof.
  intros Hv Hne. unfold read_bit. case_decide; [|done].
  rewrite list_lookup_insert_ne by lia. done.
Qed.

Lemma sat_flipped_absent X v b c :
  1 ≤ v → (∀ l, l ∈ c → Z.abs l ≠ v) →
  sat (flipped X v b) c = sat X c.
Proof.
  intros Hv. induction c as [|a c IH]; intros Habsent; [done|].
  rewrite !sat_cons. unfold lit_holds, get. simpl.
  rewrite read_bit_insert_other
    by (try done; apply Habsent; apply elem_of_cons; by left).
  rewrite IH; [done|]. intros l Hl. apply Habsent. apply elem_of_cons. by right.
Qed.

Lemma count_flipped_absent f X v b :
  1 ≤ v → (∀ c l, c ∈ f → l ∈ c → Z.abs l ≠ v) →
  count_unsatisfied f (flipped X v b) = count_unsatisfied f X.
Proof.
  intros Hv. unfold count_unsatisfied. generalize 0.
  induction f as [|c f IH]; intros acc Habsent; simpl; [done|].
  rewrite sat_flipped_absent
    by (try done; intros l; apply Habsent; apply elem_of_cons; by left).
  destruct (sat X c); simpl; [|done].
  apply IH. intros c' l Hc'. apply Habsent. apply elem_of_cons. by right.
Qed.

(** X9.  Flipping a variable that occurs in no clause brings no improvement. *)
Theorem improvement_of_absent_variable
    (n : nat) (f : cnf) (X : Individual) (v : Z) :
  wf_cnf n f → wf_individual n X → cache_ok f X → in_range n v →
  (∀ c l, c ∈ f → l ∈ c → Z.abs l ≠ v) →
  improvement f X v = Ok 0.
Proof.
  intros Hf Hwf Hcache Hv Habsent.
  destruct (count_unsatisfied_total n f X (proj1 Hwf) Hf) as [a Ha].
  destruct (flip_Ok n X v Hwf Hv) as (bit & Hbit & _).
  replace 0 with (a - a) by lia.
  eapply improvement_Ok; try done.
  - by apply evaluate_cache_ok.
  - rewrite count_flipped_absent; [done | apply Hv | done].
Qed.

Lemma improvement_of_absent_variable_witness :
  improvement [[1; -3]; [3]] (ind_of [false; true; false]) 2 = Ok 0.
Proof.
  apply (improvement_of_absent_variable 3); try solve_wf.
  intros c l Hc Hl.
  repeat (apply elem_of_cons in Hc as [->|Hc]);
    [| |by apply elem_of_nil in Hc];
    repeat (apply elem_of_cons in Hl as [->|Hl]);
    try (by apply elem_of_nil in Hl); simpl; lia.
Defined.

(** X10.  On well-formed input an improvement lies between minus and plus the
    number of clauses. *)
Theorem improvement_bounded (n : nat) (f : cnf) (X : Individual) (v : Z) :
  wf_cnf n f → wf_individual n X → cache_ok f X → in_range n v →
  ∃ d, improvement f X v = Ok d
       ∧ - Z.of_nat (length f) ≤ d ≤ Z.of_nat (length f).
Proof.
  intros Hf Hwf Hcache Hv.
  destruct (count_unsatisfied_total n f X (proj1 Hwf) Hf) as [a Ha].
  destruct (flip_Ok n X v Hwf Hv) as (bit & Hbit & _).
  destruct (count_unsatisfied_total n f (flipped X v bit)
              (proj1 (wf_flipped n X v bit Hwf)) Hf) as [b Hb].
  exists (a - b). split.
  - eapply improvement_Ok; try done. by apply evaluate_cache_ok.
  - apply count_unsatisfied_bounds in Ha, Hb. lia.
Qed.

Lemma improvement_bounded_witness :
  ∃ d, improvement [[1]; [1; 2]] (ind_of [false; false]) 1 = Ok d
       ∧ - Z.of_nat (length [[1]; [1; 2]]) ≤ d
         ≤ Z.of_nat (length [[1]; [1; 2]]).
Proof. apply (improvement_bounded 2); solve_wf. Defined.

(** ** The population manager *)

Lemma max_by_from_spec {A} (key : A → result Z) (l : list A) : ∀ best bk r,
  key best = Ok bk →
  max_by_from key l best bk = Ok r →
  (r = best ∨ r ∈ l)
  ∧ ∃ kr, key r = Ok kr ∧ bk ≤ kr
          ∧ ∀ b, b ∈ l → ∃ kb, key b = Ok kb ∧ kb ≤ kr.
Proof.
  induction l as [|a l IH]; simpl; intros best bk r Hbest Hrun.
  - inversion Hrun; subst. split; [by left|]. exists bk.
    split; [done|]. split; [lia|]. intros b Hb. by apply elem_of_nil in Hb.
  - apply bind_Ok in Hrun as (ka & Hka & Hrun). case_decide as Hcmp.
    + destruct (IH _ _ _ Hka Hrun) as [Hin (kr & Hkr & Hle & Hall)].
      split.
      { right. apply elem_of_cons. destruct Hin; [by left | by right]. }
      exists kr. split; [done|]. split; [lia|].
      intros b [->|Hb]%elem_of_cons; [exists ka; split; [done | lia] | auto].
    + destruct (IH _ _ _ Hbest Hrun) as [Hin (kr & Hkr & Hle & Hall)].
      split.
      { destruct Hin; [by left|]. right. apply elem_of_cons. by right. }
      exists kr. split; [done|]. split; [lia|].
      intros b [->|Hb]%elem_of_cons; [exists ka; split; [done | lia] | auto].
Qed.

(** [max] with a key returns a member of the sequence whose key is the
    greatest. *)
Lemma max_by_spec {A} (key : A → result Z) (l : list A) r :
  max_by key l = Ok r →
  r ∈ l ∧ ∃ kr, key r = Ok kr ∧ ∀ b, b ∈ l → ∃ kb, key b = Ok kb ∧ kb ≤ kr.
Proof.
  destruct l as [|a l]; [discriminate|]. simpl.
  intros (ka & Hka & Hrun)%bind_Ok.
  destruct (max_by_from_spec key l a ka r Hka Hrun)
    as [Hin (kr & Hkr & Hle & Hall)].
  split.
  { apply elem_of_cons. destruct Hin; [by left | by right]. }
  exists kr. split; [done|].
  intros b [->|Hb]%elem_of_cons; [exists ka; split; [done | lia] | auto].
Qed.

Lemma list_remove_spec x l r :
  list_remove x l = Ok r →
  ∃ pre post, l = pre ++ x :: post ∧ (x ∉ pre) ∧ r = pre ++ post.
Proof.
  revert r. induction l as [|a l IH]; simpl; intros r Hrun; [discriminate|].
  case_decide as Heq.
  - inversion Hrun; subst. exists [], r. split; [done|]. split; [|done].
    by intros ?%elem_of_nil.
  - apply bind_Ok in Hrun as (r' & Hr' & Hrun). inversion Hrun; subst.
    destruct (IH _ Hr') as (pre & post & -> & Hpre & ->).
    exists (a :: pre), post. split; [done|]. split; [|done].
    intros [->|Hin]%elem_of_cons; [done | by apply Hpre].
Qed.

(** X22.  Whenever [replace] returns, the population has the size it had and
    nothing but the population has changed.  Either the population is
    untouched, or the first occurrence of [weakest] has been removed and the
    child appended, [weakest] being a member of the sub-population that no
    member exceeds in fitness. *)
Theorem replace_keeps_population_size (self self' : GA) (child : Individual) :
  replace self (Some child) = Ok self' →
  ∃ population',
    self' = with_population self population'
    ∧ length population' = length (population self)
    ∧ (population' = population self
       ∨ ∃ weakest pre post e_weakest,
           weakest ∈ sub_population self
           ∧ evaluate (formula self) weakest = Ok e_weakest
           ∧ (∀ s, s ∈ sub_population self →
                ∃ e, evaluate (formula self) s = Ok e ∧ e ≤ e_weakest)
           ∧ population self = pre ++ weakest :: post
           ∧ (weakest ∉ pre)
           ∧ population' = pre ++ post ++ [child]).
Proof.
  unfold replace. intros (weakest & Hmax & H)%bind_Ok.
  apply bind_Ok in H as (e_weakest & Hw & H).
  apply bind_Ok in H as (e_child & _ & H).
  destruct (negb (bool_decide (e_weakest > e_child))).
  - apply bind_Ok in H as (remaining & Hrem & H). simpl in H.
    inversion H; subst.
    apply list_remove_spec in Hrem as (pre & post & Hpop & Hpre & ->).
    apply max_by_spec in Hmax as [Hin (kr & Hkr & Hall)].
    assert (kr = e_weakest) as -> by congruence.
    exists ((pre ++ post) ++ [child]). split; [done|]. split.
    { rewrite Hpop. rewrite !length_app. simpl. lia. }
    right. exists weakest, pre, post, e_weakest.
    repeat split; try done. by rewrite <- app_assoc.
  - inversion H; subst. exists (population self').
    split; [by destruct self'|]. split; [done | by left].
Qed.

Lemma replace_keeps_population_size_witness :
  let self := solver [[1]; [2]]
                [ind_of [true; true]; ind_of [true; false]]
                [ind_of [true; true]; ind_of [true; false]] in
  let child := ind_of [false; false] in
  let self' := with_population self [ind_of [true; true]; child] in
  ∃ population',
    self' = with_population self population'
    ∧ length population' = length (population self)
    ∧ (population' = population self
       ∨ ∃ weakest pre post e_weakest,
           weakest ∈ sub_population self
           ∧ evaluate (formula self) weakest = Ok e_weakest
           ∧ (∀ s, s ∈ sub_population self →
                ∃ e, evaluate (formula self) s = Ok e ∧ e ≤ e_weakest)
           ∧ population self = pre ++ weakest :: post
           ∧ (weakest ∉ pre)
           ∧ population' = pre ++ post ++ [child]).
Proof.
  intros self child self'.
  apply (replace_keeps_population_size self self' child). reflexivity.
Defined.

(** X23.  [replace] needs a non-empty sub-population, and the individual it picks
    there must still be in the population: otherwise [ValueError]. *)
Theorem replace_raises_ValueError (self : GA) (child : pyobject) :
  (sub_population self = [] → replace self child = Raise ValueError)
  ∧ (∀ weakest e_weakest e_child,
       max_by (evaluate (formula self)) (sub_population self) = Ok weakest →
       evaluate (formula self) weakest = Ok e_weakest →
       evaluate_obj (formula self) child = Ok e_child →
       e_weakest ≤ e_child →
       weakest ∉ population self →
       replace self child = Raise ValueError).
Proof.
  split.
  - intros Hempty. unfold replace. by rewrite Hempty.
  - intros weakest e_weakest e_child Hmax Hw Hc Hle Hnotin.
    unfold replace. rewrite Hmax. simpl. rewrite Hw. simpl. rewrite Hc. simpl.
    rewrite bool_decide_eq_false_2 by lia. simpl.
    assert (∀ l, weakest ∉ l → list_remove weakest l = Raise ValueError) as Hrm.
    { induction l as [|a l IH]; simpl; intros Hl; [done|].
      rewrite decide_False by (intros ->; apply Hl; apply elem_of_cons; by left).
      rewrite IH; [done|]. intros Hin. apply Hl. apply elem_of_cons. by right. }
    by rewrite Hrm.
Qed.

(** X21.  [is_satisfied] returns the first member of the population whose fitness
    is 0, and [None] exactly when every member has a non-zero fitness. *)
Theorem is_satisfied_first_solution (self : GA) (r : pyobject) :
  is_satisfied self = Ok r →
  match r with
  | Some X =>
      ∃ pre post, population self = pre ++ X :: post
        ∧ evaluate (formula self) X = Ok 0
        ∧ Forall (λ Y, ∃ e, evaluate (formula self) Y = Ok e ∧ e ≠ 0) pre
  | None =>
      Forall (λ Y, ∃ e, evaluate (formula self) Y = Ok e ∧ e ≠ 0)
             (population self)
  end.
Proof.
  unfold is_satisfied. generalize (population self) as l.
  induction l as [|Y l IH]; simpl; intros Hrun.
  - inversion Hrun; subst. constructor.
  - apply bind_Ok in Hrun as (e & He & Hrun). case_decide as H0.
    + inversion Hrun; subst. exists [], l. repeat split; [done | constructor].
    + specialize (IH Hrun). destruct r as [X|].
      * destruct IH as (pre & post & -> & HX & Hpre).
        exists (Y :: pre), post. repeat split; [done|].
        constructor; [eauto | done].
      * constructor; [eauto | done].
Qed.

Lemma is_satisfied_first_solution_witness :
  let self := solver [[1]] [ind_of [false]; ind_of [true]; ind_of [true]] [] in
  ∃ pre post, population self = pre ++ ind_of [true] :: post
    ∧ evaluate (formula self) (ind_of [true]) = Ok 0
    ∧ Forall (λ Y, ∃ e, evaluate (formula self) Y = Ok e ∧ e ≠ 0) pre.
Proof.
  intros self.
  apply (is_satisfied_first_solution self (Some (ind_of [true]))). reflexivity.
Defined.

(** ** Tabu search: the best individual and the forbidden map *)

Lemma forced_flip_best self i X d pos r :
  forced_flip self i X d pos = Ok r → best (fst r) = best self.
Proof.
  unfold forced_flip. case_decide as Hfree.
  - intros (X' & _ & H)%bind_Ok. by inversion H; subst.
  - intros H. by inversion H; subst.
Qed.

Lemma diversify_clause_best st i st' :
  diversify_clause st i = Ok st' → best (ts_self st') = best (ts_self st).
Proof.
  unfold diversify_clause. intros H.
  apply bind_Ok in H as (c & _ & H). apply bind_Ok in H as (s & _ & H).
  destruct s; [by inversion H; subst|].
  apply bind_Ok in H as (count & _ & H).
  case_decide as Hmax.
  - apply bind_Ok in H as (value & _ & H).
    apply bind_Ok in H as (first & Hfirst & H).
    apply bind_Ok in H as (cascade & _ & H).
    inversion H; subst; simpl. by apply forced_flip_best in Hfirst.
  - by inversion H; subst.
Qed.

(** The ordinary move replaces [self.best] only by a strictly fitter
    individual. *)
Lemma tabu_move_best st index st1 a :
  tabu_move st index = Ok st1 →
  evaluate_obj (formula (ts_self st)) (best (ts_self st)) = Ok a →
  ∃ b, evaluate_obj (formula (ts_self st)) (best (ts_self st1)) = Ok b ∧ b ≤ a.
Proof.
  unfold tabu_move. case_decide as Htabu.
  - intros (temp & _ & H)%bind_Ok Ha.
    apply bind_Ok in H as (e_temp & He_temp & H).
    apply bind_Ok in H as (e_best & He_best & H).
    apply bind_Ok in H as (fb & _ & H).
    inversion H; subst; simpl. case_decide as Hcmp; simpl.
    + exists e_temp. split; [done|]. rewrite He_best in Ha.
      inversion Ha; subst. lia.
    + exists a. split; [done | lia].
  - intros H Ha. inversion H; subst. exists a. split; [done | lia].
Qed.

Lemma tabu_iteration_best choose_function calls st st' a :
  tabu_iteration choose_function calls st = Ok st' →
  evaluate_obj (formula (ts_self st)) (best (ts_self st)) = Ok a →
  ∃ b, evaluate_obj (formula (ts_self st)) (best (ts_self st')) = Ok b ∧ b ≤ a.
Proof.
  unfold tabu_iteration. intros H Ha.
  apply bind_Ok in H as (index & _ & H).
  apply bind_Ok in H as (st1 & Hst1 & H).
  destruct (tabu_move_best _ _ _ _ Hst1 Ha) as (b & Hb & Hle).
  exists b. split; [|done].
  assert (best (ts_self st') = best (ts_self st1)) as ->; [|done].
  destruct (is_diversification (ts_self st)); [|by inversion H; subst].
  revert H.
  apply (for_each_invariant
           (λ s, best (ts_self s) = best (ts_self st1))); [|done].
  intros s i s' Hs Hstep. apply diversify_clause_best in Hstep. congruence.
Qed.

Lemma tabu_loop_best choose_function : ∀ fuel calls st st',
  tabu_loop fuel choose_function calls st = Some (Ok st') →
  formula (ts_self st') = formula (ts_self st)
  ∧ ∃ a b,
      evaluate_obj (formula (ts_self st)) (best (ts_self st)) = Ok a
      ∧ evaluate_obj (formula (ts_self st)) (best (ts_self st')) = Ok b
      ∧ b ≤ a
      ∧ (b = 0 ∨ max_flip (ts_self st') ≤ num_flips st').
Proof.
  induction fuel as [|fuel IH]; intros calls st st'; [discriminate|].
  simpl. destruct (tabu_continue st) as [[]|] eqn:Hc; [| |discriminate].
  - destruct (tabu_iteration choose_function calls st) as [s1|] eqn:Hit;
      [|discriminate].
    intros Hrest. apply IH in Hrest as [Hf (a1 & b & Ha1 & Hb & Hle & Hexit)].
    pose proof (tabu_iteration_keeps _ _ _ _ Hit) as [(_ & _ & Hf1 & _) _].
    apply bind_Ok in Hc as (a & Ha & _).
    destruct (tabu_iteration_best _ _ _ _ _ Hit Ha) as (a1' & Ha1' & Hle1).
    rewrite Hf1 in Ha1, Hb. assert (a1' = a1) as -> by congruence.
    split; [congruence|]. exists a, b.
    split; [done|]. split; [done|]. split; [lia | done].
  - intros [= <-]. split; [done|].
    apply bind_Ok in Hc as (a & Ha & Hc). inversion Hc as [Hb].
    exists a, a. split; [done|]. split; [done|]. split; [lia|].
    apply andb_false_iff in Hb as [Hb|Hb].
    + left. apply negb_false_iff, bool_decide_eq_true in Hb. done.
    + right. apply bool_decide_eq_false in Hb. lia.
Qed.

(** X15.  Whenever a descent ends normally, [self.best] is at least as fit as the
    seed it started from. *)
Theorem standard_tabu_best_not_worse
    (fuel : nat) (self : GA) (seed : Individual) (choose_function : chooser)
    (r : pyobject * GA) :
  standard_tabu fuel self seed choose_function = Some (Ok r) →
  formula (snd r) = formula self
  ∧ ∃ a b, evaluate (formula self) seed = Ok a
           ∧ evaluate_obj (formula self) (best (snd r)) = Ok b
           ∧ b ≤ a.
Proof.
  unfold standard_tabu.
  destruct (tabu_loop fuel choose_function 0 (tabu_init self seed))
    as [[st|]|] eqn:Hloop; [|discriminate..].
  intros [= <-]. simpl.
  apply tabu_loop_best in Hloop as [Hf (a & b & Ha & Hb & Hle & _)].
  simpl in *. split; [done|]. by exists a, b.
Qed.

Lemma standard_tabu_best_not_worse_witness :
  let self := solver [[1]; [2]] [] [] in
  let seed := ind_of [false; false] in
  let found := flipped (flipped seed 1 false) 2 false in
  formula (with_best self (Some found)) = formula self
  ∧ ∃ a b, evaluate (formula self) seed = Ok a
           ∧ evaluate_obj (formula self) (best (with_best self (Some found)))
             = Ok b
           ∧ b ≤ a.
Proof.
  intros self seed found.
  apply (standard_tabu_best_not_worse 11 self seed
           (standard_tabu_choose choose_first)
           (None, with_best self (Some found))).
  reflexivity.
Defined.

Lemma standard_tabu_terminates_witness :
  ∃ r, standard_tabu (S (Z.to_nat (max_flip (solver [[1]; [2]] [] []))))
         (solver [[1]; [2]] [] []) (ind_of [false; false])
         (standard_tabu_choose choose_first) = Some r.
Proof. by apply standard_tabu_terminates. Defined.

(** X18.  In the cascade of [standard_tabu], on a clause of non-zero literals and a
    map without the key 0, a step that returns has flipped nothing: the flip
    of a free position is followed by the aging loop, which then fails. *)
Theorem nested_flip_never_flips
    (f : cnf) (kk : Z) (X X' : Individual) (d d' : gmap Z Z) (c : clause) :
  d !! 0 = None → 0 ∉ c →
  nested_flip f kk (X, d) c = Ok (X', d') →
  X' = X ∧ d' = d.
Proof.
  intros Hd0 Hc0. unfold nested_flip. simpl.
  intros (value & Hvalue & H)%bind_Ok.
  apply max_by_spec in Hvalue as [[_ Hin]%list_elem_of_filter _].
  case_decide as Hfree; [|by inversion H; subst].
  exfalso.
  apply bind_Ok in H as (X1 & _ & H). apply bind_Ok in H as (d1 & Hage & _).
  rewrite age_forbidden_KeyError in Hage; [done| |].
  - apply insert_non_empty.
  - rewrite lookup_insert_ne; [done|].
    intros Habs. apply Hc0. by replace 0 with value by lia.
Qed.

Lemma nested_flip_never_flips_witness :
  ind_of [true] = ind_of [true] ∧ ({[1 := 0]} : gmap Z Z) = {[1 := 0]}.
Proof.
  apply (nested_flip_never_flips [[-1]] 5 _ _ _ _ [-1]).
  - reflexivity.
  - intros [H|H]%elem_of_cons; [discriminate H | by apply elem_of_nil in H].
  - reflexivity.
Defined.

(** X17.  With diversification on, once the forbidden map holds a variable (and
    not the key 0), no ordinary move of a non-tabu position completes. *)
Theorem tabu_move_fails_on_forbidden_map (st : tabu_state) (index : Z * list Z) :
  is_diversification (ts_self st) = true →
  forbidden_flips st ≠ ∅ → forbidden_flips st !! 0 = None →
  fst index ∉ tabu (ts_self st) →
  ∃ e, tabu_move st index = Raise e.
Proof.
  intros Hdiv Hne H0 Htabu. unfold tabu_move. rewrite decide_True by done.
  destruct (flip _ _) as [temp|e]; simpl; [|eauto].
  destruct (evaluate _ temp) as [e_temp|e]; simpl; [|eauto].
  destruct (evaluate_obj _ _) as [e_best|e]; simpl; [|eauto].
  assert (is_diversification
            (if decide (e_temp < e_best)
             then with_best (ts_self st) (Some temp) else ts_self st)
          = true) as -> by (by case_decide).
  rewrite age_forbidden_KeyError by done. simpl. eauto.
Qed.

Lemma tabu_move_fails_on_forbidden_map_witness :
  ∃ e, tabu_move (mkTabu (with_best (diversifying [[1]; [2]])
                            (Some (ind_of [false; false])))
                         (ind_of [false; false]) 0 {[2 := 0]})
                 (1, [1; 2]) = Raise e.
Proof.
  apply tabu_move_fails_on_forbidden_map; try reflexivity.
  - intros Hempty. apply (f_equal (λ m : gmap Z Z, m !! 2)) in Hempty.
    discriminate Hempty.
  - simpl. intros H. by apply elem_of_nil in H.
Defined.

(** ** The standard choice function *)

Lemma admissible_total n self X p e_best :
  wf_cnf n (formula self) → wf_individual n X →
  evaluate_obj (formula self) (best self) = Ok e_best →
  in_range n p →
  ∃ a, admissible self X p = Ok a.
Proof.
  intros Hf Hwf Hbest Hp. unfold admissible, deepcopy.
  destruct (flip_Ok n X p Hwf Hp) as (bit & _ & ->). simpl.
  case_decide; [eauto|].
  destruct (evaluate_total n (formula self) (flipped X p bit)
              (proj1 (wf_flipped n X p bit Hwf)) Hf) as [e ->].
  simpl. rewrite Hbest. simpl. eauto.
Qed.

Lemma choose_step_cases self X positions sigma p a gp :
  admissible self X p = Ok a →
  improvement (formula self) X p = Ok gp →
  choose_step self X (positions, sigma) p =
    Ok (if a then
          match sigma with
          | None => ([p], Some gp)
          | Some s =>
              if decide (gp > s) then ([p], Some gp)
              else if decide (gp = s) then (positions ++ [p], Some s)
                   else (positions, Some s)
          end
        else
          match sigma with
          | None => (positions ++ [p], None)
          | Some s => (positions, Some s)
          end).
Proof.
  unfold admissible, choose_step. intros Ha Hg.
  destruct (flip (deepcopy X) p) as [temp|]; simpl in *; [|discriminate].
  rewrite Ha. simpl. destruct a; simpl.
  - rewrite Hg. simpl. destruct sigma as [s|]; [|done].
    by repeat case_decide.
  - by destruct sigma.
Qed.

Lemma best_gain_positions_none adm g s l :
  (∀ q, q ∈ l → ¬ (adm q = true ∧ g q = s)) →
  best_gain_positions adm g s l = [].
Proof.
  unfold best_gain_positions. induction l as [|a l IH]; intros Hnone; [done|].
  rewrite filter_cons_False
    by (apply Hnone; apply elem_of_cons; by left).
  apply IH. intros q Hq. apply Hnone. apply elem_of_cons. by right.
Qed.

Lemma elem_of_snoc (l : list Z) p q : q ∈ l ++ [p] → q ∈ l ∨ q = p.
Proof.
  intros [Hq|Hq]%elem_of_app; [by left|].
  right. by apply list_elem_of_singleton in Hq.
Qed.

Lemma choose_loop_inv self X (adm : Z → bool) (g : Z → Z) ps :
  (∀ p, p ∈ ps → admissible self X p = Ok (adm p)
                 ∧ improvement (formula self) X p = Ok (g p)) →
  ∀ visited st,
    choose_inv adm g visited st →
    ∃ st', for_each (choose_step self X) ps st = Ok st'
           ∧ choose_inv adm g (visited ++ ps) st'.
Proof.
  induction ps as [|p ps IH]; intros Hps visited st Hinv.
  - exists st. by rewrite app_nil_r.
  - destruct (Hps p) as [Ha Hg]; [by apply elem_of_cons; left|].
    destruct st as [positions sigma]. simpl for_each.
    rewrite (choose_step_cases self X positions sigma p _ _ Ha Hg). simpl.
    replace (visited ++ p :: ps) with ((visited ++ [p]) ++ ps)
      by (by rewrite <- app_assoc).
    apply IH; [intros q Hq; apply Hps; apply elem_of_cons; by right|].
    unfold choose_inv in *. simpl in *.
    destruct (adm p) eqn:Hadm; destruct sigma as [s|]; simpl.
    + destruct Hinv as (Hpos & Hne & Hmax).
      destruct (decide (g p > s)) as [Hgt|Hngt]; simpl;
        [|destruct (decide (g p = s)) as [Heq|Hneq]; simpl].
      * split; [|split; [done|]].
        -- unfold best_gain_positions. rewrite filter_app.
           fold (best_gain_positions adm g (g p) visited).
           rewrite best_gain_positions_none.
           ++ by rewrite filter_cons_True.
           ++ intros q Hq [Hq1 Hq2]. specialize (Hmax q Hq Hq1). lia.
        -- intros q [Hq| ->]%elem_of_snoc Hq1; [|lia].
           specialize (Hmax q Hq Hq1). lia.
      * split; [|split].
        -- unfold best_gain_positions in *. rewrite filter_app, <- Hpos.
           by rewrite filter_cons_True.
        -- by destruct positions.
        -- intros q [Hq| ->]%elem_of_snoc Hq1; [auto | lia].
      * split; [|split; [done|]].
        -- unfold best_gain_positions in *. rewrite filter_app, <- Hpos.
           rewrite filter_cons_False by (intros [_ ?]; done).
           by rewrite app_nil_r.
        -- intros q [Hq| ->]%elem_of_snoc Hq1; [auto | lia].
    + destruct Hinv as [-> Hnone]. split; [|split; [done|]].
      * unfold best_gain_positions. rewrite filter_app.
        fold (best_gain_positions adm g (g p) visited).
        rewrite best_gain_positions_none.
        -- by rewrite filter_cons_True.
        -- intros q Hq [Hq1 _]. rewrite (Hnone q Hq) in Hq1. done.
      * intros q [Hq| ->]%elem_of_snoc Hq1; [|lia].
        rewrite (Hnone q Hq) in Hq1. done.
    + destruct Hinv as (Hpos & Hne & Hmax). split; [|split; [done|]].
      * unfold best_gain_positions in *. rewrite filter_app, <- Hpos.
        rewrite filter_cons_False by (intros [? _]; congruence).
        by rewrite app_nil_r.
      * intros q [Hq| ->]%elem_of_snoc Hq1;
          [auto | congruence].
    + destruct Hinv as [-> Hnone]. split; [done|].
      intros q [Hq| ->]%elem_of_snoc; auto.
Qed.

(** X14.  On well-formed input [standard_tabu_choose] returns, with the position
    drawn, the list [positions] it drew from.  If some position is
    admissible (not tabu, or its flip beats [self.best]), the list holds, in
    increasing order, exactly the admissible positions whose improvement is
    the greatest among the admissible ones; if none is, it holds every
    position [1..n]. *)
Theorem standard_tabu_choose_positions
    (n : nat) (self : GA) (X : Individual) (e_best : Z) :
  wf_cnf n (formula self) → wf_individual n X →
  evaluate_obj (formula self) (best self) = Ok e_best →
  ∃ (adm : Z → bool) (g : Z → Z) (positions : list Z) (sigma : option Z),
    (∀ p, in_range n p →
       admissible self X p = Ok (adm p)
       ∧ improvement (formula self) X p = Ok (g p))
    ∧ choose_positions self X = Ok (positions, sigma)
    ∧ match sigma with
      | None =>
          positions = seqZ 1 (Z.of_nat n)
          ∧ ∀ p, in_range n p → adm p = false
      | Some s =>
          positions = filter (λ p, adm p = true ∧ g p = s) (seqZ 1 (Z.of_nat n))
          ∧ positions ≠ []
          ∧ ∀ p, in_range n p → adm p = true → g p ≤ s
      end
    ∧ ∀ random_choice calls,
        standard_tabu_choose random_choice calls self X
        = (p <- random_choice calls positions ;; Ok (p, positions)).
Proof.
  intros Hf Hwf Hbest.
  set (adm := λ p, match admissible self X p with
                   | Ok a => a | Raise _ => false end).
  set (g := λ p, match improvement (formula self) X p with
                 | Ok d => d | Raise _ => 0 end).
  assert (∀ p, in_range n p →
            admissible self X p = Ok (adm p)
            ∧ improvement (formula self) X p = Ok (g p)) as Hag.
  { intros p Hp. unfold adm, g.
    destruct (admissible_total n self X p e_best Hf Hwf Hbest Hp) as [a ->].
    destruct (improvement_total n (formula self) X p Hf Hwf Hp) as [d ->].
    done. }
  assert (∀ p, p ∈ seqZ 1 (Z.of_nat n) ↔ in_range n p) as Hrange.
  { intros p. rewrite elem_of_seqZ. unfold in_range. lia. }
  destruct (choose_loop_inv self X adm g (seqZ 1 (Z.of_nat n))) with
    (visited := @nil Z) (st := (@nil Z, @None Z)) as ([positions sigma] & Hrun & Hinv).
  { intros p Hp. apply Hag. by apply Hrange. }
  { split; [done|]. intros q Hq. by apply elem_of_nil in Hq. }
  exists adm, g, positions, sigma. split; [done|].
  assert (choose_positions self X = Ok (positions, sigma)) as Hpos.
  { unfold choose_positions. destruct Hwf as [-> _]. done. }
  split; [done|]. split.
  - unfold choose_inv in Hinv. simpl in Hinv. destruct sigma as [s|].
    + destruct Hinv as (-> & Hne & Hmax). split; [done|]. split; [done|].
      intros p Hp. apply Hmax. by apply Hrange.
    + destruct Hinv as [-> Hnone]. split; [done|].
      intros p Hp. apply Hnone. by apply Hrange.
  - intros random_choice calls. unfold standard_tabu_choose.
    fold (choose_positions self X). by rewrite Hpos.
Qed.

Lemma standard_tabu_choose_positions_witness :
  let self := with_best (solver [[1]; [2]; [2; 3]] [] [])
                        (Some (ind_of [false; false; false])) in
  let X := ind_of [false; false; false] in
  ∃ (adm : Z → bool) (g : Z → Z) (positions : list Z) (sigma : option Z),
    (∀ p, in_range 3 p →
       admissible self X p = Ok (adm p)
       ∧ improvement (formula self) X p = Ok (g p))
    ∧ choose_positions self X = Ok (positions, sigma)
    ∧ match sigma with
      | None =>
          positions = seqZ 1 (Z.of_nat 3)
          ∧ ∀ p, in_range 3 p → adm p = false
      | Some s =>
          positions = filter (λ p, adm p = true ∧ g p = s) (seqZ 1 (Z.of_nat 3))
          ∧ positions ≠ []
          ∧ ∀ p, in_range 3 p → adm p = true → g p ≤ s
      end
    ∧ ∀ random_choice calls,
        standard_tabu_choose random_choice calls self X
        = (p <- random_choice calls positions ;; Ok (p, positions)).
Proof.
  intros self X.
  apply (standard_tabu_choose_positions 3 self X 3); solve_wf.
Defined.

(** On that input flipping variable 2 gains two clauses and is the only
    position kept. *)
Example standard_tabu_choose_run :
  standard_tabu_choose choose_first 0%nat
    (with_best (solver [[1]; [2]; [2; 3]] [] [])
               (Some (ind_of [false; false; false])))
    (ind_of [false; false; false])
  = Ok (2, [2]).
Proof. reflexivity. Qed.

(** ** Truth maintenance *)

Lemma for_each_invariant_in {A S} (P : S → Prop) (body : S → A → result S) l :
  (∀ s a s', a ∈ l → P s → body s a = Ok s' → P s') →
  ∀ s s', P s → for_each body l s = Ok s' → P s'.
Proof.
  induction l as [|a l IH]; simpl; intros Hstep s s' Hs Hrun.
  - by inversion Hrun; subst.
  - apply bind_Ok in Hrun as (s1 & H1 & H2).
    apply (IH (λ s0 b s0' Hb, Hstep s0 b s0' (proj2 (elem_of_cons l b a)
                                                 (or_intror Hb))) s1 s');
      [|done].
    apply (Hstep s a s1); [by apply elem_of_cons; left | done..].
Qed.

(** The position the scan of the second pass holds is either still the
    sentinel [-1], or the variable of a literal of the clause that a parent
    sets to 1 and that, set to 1 in the child, makes [sat_crossover] accept
    the clause. *)
Lemma tm_scan_step_inv f x y z c st lit st' :
  lit ∈ c →
  (snd st = -1
   ∨ ∃ l z_new, l ∈ c ∧ snd st = Z.abs l
       ∧ tm_candidate x y (Z.abs l) = Ok true
       ∧ tm_update z (Z.abs l) = Ok z_new
       ∧ sat_crossover z_new c = Ok true) →
  tm_scan_step f x y z c st lit = Ok st' →
  (snd st' = -1
   ∨ ∃ l z_new, l ∈ c ∧ snd st' = Z.abs l
       ∧ tm_candidate x y (Z.abs l) = Ok true
       ∧ tm_update z (Z.abs l) = Ok z_new
       ∧ sat_crossover z_new c = Ok true).
Proof.
  intros Hlit Hinv. unfold tm_scan_step.
  intros (cand & Hcand & H)%bind_Ok.
  destruct cand; [|by inversion H; subst].
  apply bind_Ok in H as (ix & _ & H). apply bind_Ok in H as (iy & _ & H).
  apply bind_Ok in H as (z1 & Hz1 & H). apply bind_Ok in H as (z2 & Hz2 & H).
  apply bind_Ok in H as (better & Hbetter & H).
  destruct better; [|by inversion H; subst].
  inversion H; subst; simpl. right. exists lit, z2.
  split; [done|]. split; [done|]. split; [done|]. split.
  - unfold tm_update. unfold deepcopy in Hz1. rewrite Hz1. done.
  - by case_decide.
Qed.

(** X12.  Whenever the second pass changes the child at a clause, the child then
    satisfies that clause in the sense of [sat_crossover]: the change is
    [set(v, 1); set_defined(v)] for the variable [v] of a literal of the
    clause that one of the parents sets to 1. *)
Theorem truth_maintenance_satisfies_clause
    (f : cnf) (m : Z) (x y z z' : Individual) (c : clause) :
  tm_clause f m x y z c = Ok z' →
  z' = z
  ∨ ∃ l, l ∈ c
         ∧ tm_candidate x y (Z.abs l) = Ok true
         ∧ tm_update z (Z.abs l) = Ok z'
         ∧ sat_crossover z' c = Ok true.
Proof.
  unfold tm_clause. intros (sx & _ & H)%bind_Ok.
  destruct sx; simpl in H; [|left; by inversion H].
  apply bind_Ok in H as (sy & _ & H).
  destruct sy; simpl in H; [|left; by inversion H].
  apply bind_Ok in H as (sz & _ & H).
  destruct sz; [left; by inversion H|].
  apply bind_Ok in H as (st & Hscan & H).
  assert (snd st = -1
          ∨ ∃ l z_new, l ∈ c ∧ snd st = Z.abs l
              ∧ tm_candidate x y (Z.abs l) = Ok true
              ∧ tm_update z (Z.abs l) = Ok z_new
              ∧ sat_crossover z_new c = Ok true) as Hinv.
  { revert Hscan.
    apply (for_each_invariant_in
             (λ st, snd st = -1
                    ∨ ∃ l z_new, l ∈ c ∧ snd st = Z.abs l
                        ∧ tm_candidate x y (Z.abs l) = Ok true
                        ∧ tm_update z (Z.abs l) = Ok z_new
                        ∧ sat_crossover z_new c = Ok true)).
    - intros s a s' Ha Hs Hstep. by eapply tm_scan_step_inv.
    - by left. }
  case_decide as Hsentinel; [left; by inversion H|].
  destruct Hinv as [?|(l & z_new & Hl & Hpos & Hcand & Hupd & Hsat)]; [done|].
  right. exists l. rewrite Hpos in H.
  assert (z_new = z') as -> by congruence. done.
Qed.

Lemma truth_maintenance_satisfies_clause_witness :
  let x := ind_of [true; false] in
  let y := ind_of [false; true] in
  let z := mkIndividual [false; false] [false; false] false 0 in
  let z' := mkIndividual [true; false] [true; false] false 0 in
  z' = z
  ∨ ∃ l, l ∈ [1; 2]
         ∧ tm_candidate x y (Z.abs l) = Ok true
         ∧ tm_update z (Z.abs l) = Ok z'
         ∧ sat_crossover z' [1; 2] = Ok true.
Proof.
  intros x y z z'.
  apply (truth_maintenance_satisfies_clause [[1; 2]; [-1; 2]] 2 x y z z').
  reflexivity.
Defined.

(** ** Sorting and selection *)

Lemma keyed_spec key l kl :
  keyed key l = Ok kl →
  snd <$> kl = l ∧ Forall (λ p, key (snd p) = Ok (fst p)) kl.
Proof.
  revert kl. induction l as [|a l IH]; simpl; intros kl Hrun.
  - inversion Hrun; subst. by split.
  - apply bind_Ok in Hrun as (ka & Hka & Hrun).
    apply bind_Ok in Hrun as (r & Hr & Hrun). inversion Hrun; subst.
    destruct (IH _ Hr) as [<- Hall]. split; [done|]. by constructor.
Qed.

Lemma insert_by_key_perm a l : insert_by_key a l ≡ₚ a :: l.
Proof.
  induction l as [|b l IH]; simpl; [done|].
  case_decide; [done|]. rewrite IH. apply Permutation_swap.
Qed.

Lemma insert_by_key_sorted a l :
  StronglySorted key_le l → StronglySorted key_le (insert_by_key a l).
Proof.
  induction 1 as [|b l Hsorted IH Hall]; simpl.
  - repeat constructor.
  - case_decide as Hcmp.
    + constructor; [by constructor|].
      constructor; [done|].
      eapply Forall_impl; [exact Hall|].
      unfold key_le. intros x Hx. simpl in *. lia.
    + constructor; [done|].
      rewrite insert_by_key_perm. constructor; [|done].
      unfold key_le. lia.
Qed.

Lemma sort_by_key_spec l :
  sort_by_key l ≡ₚ l ∧ StronglySorted key_le (sort_by_key l).
Proof.
  induction l as [|a l [IHp IHs]]; simpl.
  - split; [done | constructor].
  - split; [by rewrite insert_by_key_perm, IHp|].
    by apply insert_by_key_sorted.
Qed.

(** What [list.sort(key=...)] returns: the same items, each with its key, the
    keys in ascending order. *)
Lemma list_sort_spec key l sorted :
  list_sort key l = Ok sorted →
  ∃ ks, snd <$> ks = sorted
        ∧ sorted ≡ₚ l
        ∧ Forall (λ p, key (snd p) = Ok (fst p)) ks
        ∧ StronglySorted key_le ks.
Proof.
  unfold list_sort. intros (kl & Hkl & H)%bind_Ok. inversion H; subst.
  apply keyed_spec in Hkl as [<- Hall].
  destruct (sort_by_key_spec kl) as [Hperm Hsorted].
  exists (sort_by_key kl). split; [done|]. split; [by rewrite Hperm|].
  split; [by rewrite Hperm | done].
Qed.




(** ** The driver *)

Lemma replace_None_fails self self' : replace self None ≠ Ok self'.
Proof.
  unfold replace. intros (w & _ & H)%bind_Ok.
  apply bind_Ok in H as (e & _ & H). apply bind_Ok in H as (e' & H & _).
  discriminate H.
Qed.

Lemma refine_and_replace_fails fuel o self child self' :
  refine_and_replace fuel o self child ≠ Some (Ok self').
Proof.
  unfold refine_and_replace. destruct child as [individual|]; [|discriminate].
  unfold gasat_refine_replace.
  destruct (gasat_refine _ _ _ _ _) as [[r|]|] eqn:Hrefine; [|discriminate..].
  assert (fst r = None) as Hnone.
  { unfold gasat_refine in Hrefine.
    destruct (negb (is_rvcf self));
      by apply standard_tabu_returns_None in Hrefine as [? _]. }
  rewrite Hnone. intros [= H]. by apply replace_None_fails in H.
Qed.

Lemma gasat_generation_fails fuel d o g self r :
  gasat_generation fuel d o g self ≠ Some (Ok r).
Proof.
  unfold gasat_generation.
  destruct (select_sub_population self) as [self1|]; [|discriminate].
  destruct (draw_parents o g self1) as [[parents|]|]; [|discriminate..].
  destruct (crossover d o g self1 _ _) as [child|]; [|discriminate].
  destruct (refine_and_replace fuel o self1 child) as [[self2|]|] eqn:Hrr;
    [|discriminate..].
  by apply refine_and_replace_fails in Hrr.
Qed.

(** X24.  With at least one generation allowed, [gasat] never returns an
    individual, whatever the formula, the population, the random draws and
    the bounds on the loops: the first generation ends in an exception (or
    does not end), because the value [standard_tabu] hands back to [replace]
    is [None]. *)
Theorem gasat_never_returns
    (turns fuel : nat) (d : driver) (o : oracles) (self : GA)
    (r : Individual * GA) :
  0 < max_generations d →
  gasat turns fuel d o self ≠ Some (Ok r).
Proof.
  intros Hmax. unfold gasat.
  destruct turns as [|turns]; [discriminate|]. cbn [gasat_loop].
  case_bool_decide as Hnone; [|done].
  case_bool_decide as Hlt; [|simpl in Hlt; lia]. cbn [andb].
  destruct (gasat_generation fuel d o 0 (create_population d o self))
    as [[r1|]|] eqn:Hgen; [|discriminate..].
  by apply gasat_generation_fails in Hgen.
Qed.

Lemma gasat_never_returns_witness :
  gasat 5 11 (mkDriver 3 2 0 2)
    (mkOracles (λ _, ind_of [false; false])
       (λ _ self, match sub_population self with
                  | x :: y :: _ => Some (Ok (x, y))
                  | _ => Some (Raise IndexError)
                  end)
       choose_first
       (standard_tabu_choose choose_first))
    (solver [[1]; [2]] [] [])
  ≠ Some (Ok (ind_of [true; true], solver [[1]; [2]] [] [])).
Proof. apply gasat_never_returns. reflexivity. Defined.

(** A run of the driver: two fresh individuals, corrective-clause
    crossover, three generations allowed.  The first generation raises
    [AttributeError]. *)
Example gasat_run :
  gasat 5 11 (mkDriver 3 2 0 2)
    (mkOracles (λ _, ind_of [false; false])
       (λ _ self, match sub_population self with
                  | x :: y :: _ => Some (Ok (x, y))
                  | _ => Some (Raise IndexError)
                  end)
       choose_first
       (standard_tabu_choose choose_first))
    (solver [[1]; [2]] [] [])
  = Some (Raise AttributeError).
Proof. reflexivity. Qed.

(** X25.  With no generation allowed ([max_generations <= 0]) the driver returns
    the head of the sorted population: an individual of the population that
    none exceeds in fitness. *)
Theorem gasat_without_generations
    (turns fuel : nat) (d : driver) (o : oracles) (self self' : GA)
    (X : Individual) :
  max_generations d ≤ 0 →
  gasat turns fuel d o self = Some (Ok (X, self')) →
  X ∈ population (create_population d o self)
  ∧ ∃ e, evaluate (formula self) X = Ok e
         ∧ ∀ Y, Y ∈ population (create_population d o self) →
                ∃ e', evaluate (formula self) Y = Ok e' ∧ e ≤ e'.
Proof.
  intros Hmax. unfold gasat.
  destruct turns as [|turns]; [discriminate|]. cbn [gasat_loop].
  rewrite (bool_decide_eq_false_2 (_ < _)) by (simpl; lia).
  rewrite andb_false_r.
  change (formula (create_population d o self)) with (formula self).
  intros [= H]. apply bind_Ok in H as (sorted & Hsort & H).
  apply bind_Ok in H as (first & Hfirst & H). inversion H; subst.
  apply list_sort_spec in Hsort as (ks & <- & Hperm & Hkeys & Hsorted).
  unfold list_get in Hfirst.
  destruct ks as [|[e X'] ks]; [discriminate|]. simpl in Hfirst.
  inversion Hfirst; subst.
  apply Forall_cons in Hkeys as [HX Hkeys]. simpl in HX.
  apply StronglySorted_inv in Hsorted as [_ Hhead].
  split.
  { rewrite <- Hperm. apply elem_of_cons. by left. }
  exists e. split; [done|].
  intros Y HY. rewrite <- Hperm in HY.
  apply elem_of_cons in HY as [->|HY]; [exists e; split; [done | lia]|].
  apply list_elem_of_fmap in HY as ([e' Y'] & -> & HY).
  rewrite Forall_forall in Hkeys, Hhead.
  exists e'. split; [by apply (Hkeys _ HY)|].
  by apply (Hhead _ HY).
Qed.

Lemma gasat_without_generations_witness :
  let d := mkDriver 0 2 0 2 in
  let o := mkOracles (λ n, if decide (n = 0%nat) then ind_of [false; false]
                           else ind_of [true; false])
             (λ _ _, Some (Raise IndexError)) choose_first
             (standard_tabu_choose choose_first) in
  let self := solver [[1]; [2]] [] [] in
  ind_of [true; false] ∈ population (create_population d o self)
  ∧ ∃ e, evaluate (formula self) (ind_of [true; false]) = Ok e
         ∧ ∀ Y, Y ∈ population (create_population d o self) →
                ∃ e', evaluate (formula self) Y = Ok e' ∧ e ≤ e'.
Proof.
  intros d o self.
  apply (gasat_without_generations 1 1 d o self
           (with_population (create_population d o self)
              [ind_of [true; false]; ind_of [false; false]])).
  - reflexivity.
  - reflexivity.
Defined.

(** ** Reading the clauses of a DIMACS file *)

Lemma read_clause_inr lines : ∀ line gathered c rest line',
  read_clause lines line gathered = inr (c, rest, line') →
  ∃ consumed,
    lines = consumed ++ rest
    ∧ c = gathered ++ filter (λ t, t ≠ 0) (concat consumed)
    ∧ line' = line + Z.of_nat (length consumed)
    ∧ (lines ≠ [] → consumed ≠ []).
Proof.
  induction lines as [|tokens lines IH]; simpl; intros line gathered c rest line' H.
  - inversion H; subst. exists []. simpl. rewrite app_nil_r.
    split; [done|]. split; [done|]. split; [lia | done].
  - destruct (last tokens) as [t|]; [|discriminate].
    case_decide as Ht.
    + inversion H; subst. exists [tokens]. simpl. rewrite app_nil_r.
      split; [done|]. split; [done|]. split; [lia | done].
    + apply IH in H as (consumed & -> & -> & -> & _).
      exists (tokens :: consumed). simpl.
      rewrite filter_app, app_assoc.
      split; [done|]. split; [done|]. split; [lia | done].
Qed.

Lemma read_formula_literals : ∀ fuel lines line parsed f,
  read_formula fuel lines line parsed = Some (inr f) →
  concat f = concat parsed ++ filter (λ t, t ≠ 0) (concat lines).
Proof.
  induction fuel as [|fuel IH]; intros lines line parsed f; [discriminate|].
  simpl. destruct lines as [|l lines].
  - intros [= <-]. simpl. by rewrite app_nil_r.
  - destruct (read_clause (l :: lines) line []) as [e|[[c rest] line']] eqn:Hc;
      [discriminate|].
    intros H. apply IH in H. rewrite H.
    apply read_clause_inr in Hc as (consumed & Hsplit & -> & _ & _).
    rewrite Hsplit. rewrite !concat_app, filter_app. simpl.
    by rewrite app_nil_r, app_assoc.
Qed.

Lemma read_formula_total : ∀ fuel lines line parsed,
  (length lines < fuel)%nat →
  ∃ r, read_formula fuel lines line parsed = Some r.
Proof.
  induction fuel as [|fuel IH]; intros lines line parsed Hfuel; [lia|].
  simpl. destruct lines as [|l lines]; [eauto|].
  destruct (read_clause (l :: lines) line []) as [e|[[c rest] line']] eqn:Hc;
    [eauto|].
  apply read_clause_inr in Hc as (consumed & Hsplit & _ & _ & Hne).
  apply IH.
  assert (consumed ≠ []) as Hcons by (by apply Hne).
  apply (f_equal length) in Hsplit. rewrite length_app in Hsplit.
  destruct consumed; [done|]. simpl in *. lia.
Qed.

(** X26.  The reader always comes to an end, and when it returns a formula no
    literal has been lost, added or reordered: the literals of the formula,
    clause after clause, are the non-zero integers of the lines, and none of
    them is 0. *)
Theorem parse_clauses_keeps_literals (lines : list (list Z)) :
  ∃ r, parse_clauses lines = Some r
       ∧ ∀ f, r = inr f →
              concat f = filter (λ t, t ≠ 0) (concat lines)
              ∧ Forall (Forall (λ t, t ≠ 0)) f.
Proof.
  unfold parse_clauses.
  destruct (read_formula_total (S (length lines)) lines 1 []) as [r Hr]; [lia|].
  exists r. split; [done|]. intros f ->.
  apply read_formula_literals in Hr. simpl in Hr. split; [done|].
  assert (Forall (λ t, t ≠ 0) (concat f)) as Hall.
  { rewrite Hr. apply Forall_forall. by intros t [Ht _]%list_elem_of_filter. }
  clear Hr. induction f as [|c f IH]; [constructor|].
  simpl in Hall. apply Forall_app in Hall as [Hc Hf]. constructor; auto.
Qed.

Lemma read_formula_one_per_line (f : cnf) : ∀ fuel line parsed,
  Forall (Forall (λ t, t ≠ 0)) f →
  (length f < fuel)%nat →
  read_formula fuel ((λ c, c ++ [0]) <$> f) line parsed
  = Some (inr (parsed ++ f)).
Proof.
  induction f as [|c f IH]; intros fuel line parsed Hf Hfuel.
  - destruct fuel; [simpl in Hfuel; lia|]. simpl. by rewrite app_nil_r.
  - destruct fuel as [|fuel]; [lia|].
    apply Forall_cons in Hf as [Hc Hf].
    cbn [fmap list_fmap read_formula read_clause].
    rewrite last_snoc. rewrite decide_True by done.
    rewrite filter_app. simpl. rewrite filter_cons_False by (intros H; by apply H).
    rewrite filter_nil, app_nil_r.
    assert (@filter Z (list Z) _ (λ t, t ≠ 0) _ c = c) as ->.
    { clear -Hc. induction Hc as [|t c Ht _ IH]; [done|].
      rewrite filter_cons_True by done. by rewrite IH. }
    rewrite IH by (try done; simpl in Hfuel; lia).
    by rewrite <- app_assoc.
Qed.

(** X27.  Writing each clause on a line of its own, closed by 0, and reading the
    lines back gives the formula, provided no literal is 0. *)
Theorem parse_clauses_round_trip (f : cnf) :
  Forall (Forall (λ t, t ≠ 0)) f →
  parse_clauses ((λ c, c ++ [0]) <$> f) = Some (inr f).
Proof.
  intros Hf. unfold parse_clauses.
  rewrite read_formula_one_per_line; [done | done |].
  rewrite length_fmap. apply Nat.lt_succ_diag_r.
Qed.

Lemma parse_clauses_round_trip_witness :
  parse_clauses ((λ c, c ++ [0]) <$> [[1; -2]; [2; 3]; []])
  = Some (inr [[1; -2]; [2; 3]; []]).
Proof.
  apply parse_clauses_round_trip.
  repeat (apply Forall_cons_2 || apply Forall_nil_2); lia.
Defined.

Lemma read_clause_unterminated lines : ∀ line gathered,
  Forall (λ l, ∃ t, last l = Some t ∧ t ≠ 0) lines →
  read_clause lines line gathered
  = inr (gathered ++ filter (λ t, t ≠ 0) (concat lines), [],
         line + Z.of_nat (length lines)).
Proof.
  induction lines as [|l lines IH]; simpl; intros line gathered Hall.
  - by rewrite app_nil_r, Z.add_0_r.
  - apply Forall_cons in Hall as [(t & -> & Ht) Hall].
    rewrite decide_False by done. rewrite IH by done.
    rewrite filter_app, app_assoc.
    replace (line + 1 + Z.of_nat (length lines))
      with (line + Z.pos (Pos.of_succ_nat (length lines))) by lia.
    done.
Qed.

(** X28.  A clause ends only at a line whose last integer is 0.  When no line
    ends with 0 the whole input is read as one clause, zeros inside the lines
    dropped, and that unterminated clause is returned. *)
Theorem parse_clauses_without_terminator (lines : list (list Z)) :
  lines ≠ [] →
  Forall (λ l, ∃ t, last l = Some t ∧ t ≠ 0) lines →
  parse_clauses lines = Some (inr [filter (λ t, t ≠ 0) (concat lines)]).
Proof.
  intros Hne Hall. unfold parse_clauses.
  destruct lines as [|l lines]; [done|].
  cbn [read_formula length]. rewrite read_clause_unterminated by done.
  by destruct (length lines).
Qed.

Lemma parse_clauses_without_terminator_witness :
  parse_clauses [[1; 0; 2]; [3; 0; -4]]
  = Some (inr [filter (λ t, t ≠ 0) (concat [[1; 0; 2]; [3; 0; -4]])]).
Proof.
  apply parse_clauses_without_terminator; [done|].
  repeat (apply Forall_cons_2 || apply Forall_nil_2);
    eexists; (split; [reflexivity | lia]).
Defined.

Lemma last_nonempty {A} (l : list A) : l ≠ [] → ∃ t, last l = Some t.
Proof.
  induction l as [|a l IH]; [done|]. intros _.
  destruct l as [|b l]; [by exists a|].
  destruct IH as [t Ht]; [done|]. exists t. by rewrite last_cons_cons.
Qed.

Lemma read_clause_blank post pre : ∀ line gathered,
  Forall (λ l, l ≠ []) pre →
  read_clause (pre ++ [] :: post) line gathered
  = inl (ParseException (line + Z.of_nat (length pre)) IndexError)
  ∨ ∃ pre1 pre2 c,
      pre = pre1 ++ pre2 ∧ pre1 ≠ []
      ∧ read_clause (pre ++ [] :: post) line gathered
        = inr (c, pre2 ++ [] :: post, line + Z.of_nat (length pre1)).
Proof.
  induction pre as [|l pre IH]; intros line gathered Hpre.
  - left. simpl. by rewrite Z.add_0_r.
  - apply Forall_cons in Hpre as [Hl Hpre].
    destruct (last_nonempty l Hl) as [t Ht].
    cbn [app read_clause]. rewrite Ht. case_decide as H0.
    + right. exists [l], pre. eexists. split; [done|]. split; [done|].
      simpl. done.
    + destruct (IH (line + 1) (gathered ++ filter (λ t, t ≠ 0) l) Hpre)
        as [-> | (pre1 & pre2 & c & -> & Hne & ->)].
      * left. do 2 f_equal. simpl length. lia.
      * right. exists (l :: pre1), pre2, c. split; [done|]. split; [done|].
        do 2 f_equal. simpl length. lia.
Qed.

Lemma read_formula_blank post : ∀ fuel pre line parsed,
  Forall (λ l, l ≠ []) pre →
  (length pre < fuel)%nat →
  read_formula fuel (pre ++ [] :: post) line parsed
  = Some (inl (ParseException (line + Z.of_nat (length pre)) IndexError)).
Proof.
  induction fuel as [|fuel IH]; intros pre line parsed Hpre Hfuel; [lia|].
  cbn [read_formula].
  destruct (pre ++ [] :: post) as [|l0 ls] eqn:E; [by destruct pre|].
  rewrite <- E.
  destruct (read_clause_blank post pre line [] Hpre)
    as [-> | (pre1 & pre2 & c & -> & Hne & ->)]; [done|].
  apply Forall_app in Hpre as [_ Hpre2].
  rewrite IH.
  - do 3 f_equal. rewrite length_app. lia.
  - done.
  - rewrite length_app in Hfuel. destruct pre1; [done|]. simpl in Hfuel. lia.
Qed.

(** X29.  A line without any integer stops the reader: the exception names that
    line (lines are numbered from 1 after the header) and wraps the
    [IndexError] of taking the last token. *)
Theorem parse_clauses_blank_line (pre post : list (list Z)) :
  Forall (λ l, l ≠ []) pre →
  parse_clauses (pre ++ [] :: post)
  = Some (inl (ParseException (1 + Z.of_nat (length pre)) IndexError)).
Proof.
  intros Hpre. unfold parse_clauses.
  apply read_formula_blank; [done|]. rewrite length_app. simpl. lia.
Qed.

Lemma parse_clauses_blank_line_witness :
  parse_clauses ([[1; 2; 0]; [3]] ++ [] :: [[4; 0]])
  = Some (inl (ParseException (1 + Z.of_nat (length [[1; 2; 0]; [3]]))
                              IndexError)).
Proof.
  apply parse_clauses_blank_line.
  repeat (apply Forall_cons_2 || apply Forall_nil_2); done.
Defined.

(** ** A clause whose variables are all forbidden *)

Lemma max_by_from_total {A} (key : A → result Z) (l : list A) : ∀ best bk,
  (∀ a, a ∈ l → ∃ ka, key a = Ok ka) →
  ∃ r, max_by_from key l best bk = Ok r.
Proof.
  induction l as [|a l IH]; intros best bk Hkey; simpl; [eauto|].
  destruct (Hkey a) as [ka ->]; [apply elem_of_cons; by left|]. simpl.
  case_decide; apply IH; intros b Hb; apply Hkey, elem_of_cons; by right.
Qed.

Lemma max_by_total {A} (key : A → result Z) (l : list A) :
  l ≠ [] → (∀ a, a ∈ l → ∃ ka, key a = Ok ka) →
  ∃ r, max_by key l = Ok r.
Proof.
  destruct l as [|a l]; [done|]. intros _ Hkey. simpl.
  destruct (Hkey a) as [ka ->]; [apply elem_of_cons; by left|]. simpl.
  apply max_by_from_total. intros b Hb. apply Hkey, elem_of_cons. by right.
Qed.

(** [improvement] takes the absolute value of its index itself. *)
Lemma improvement_abs f X l : improvement f X l = improvement f X (Z.abs l).
Proof. unfold improvement. by rewrite Z.abs_idemp. Qed.

(** With a map keyed by variables, a clause that holds a negative literal
    and whose variables are all keys raises nothing at either place: the
    cascade step of [standard_tabu] returns with the individual and the map
    as they were, and [check_flip] returns as well. *)
Lemma forbidden_clause_passes n f kk X (d : gmap Z Z) (c : clause) :
  wf_cnf n f → wf_individual n X → wf_clause n c →
  (∀ v, is_Some (d !! v) → 0 < v) →
  Forall (λ l, is_Some (d !! Z.abs l)) c →
  Exists (λ l, l < 0) c →
  nested_flip f kk (X, d) c = Ok (X, d)
  ∧ ∃ r, check_flip f kk X c d = Ok r.
Proof.
  intros Hf HX Hc Hkeys Hall Hneg.
  assert (∃ value, max_by (λ l, improvement f X l)
                          (filter (λ l, d !! l = None) c) = Ok value
                   ∧ is_Some (d !! Z.abs value)) as (value & Hmax & Hkey).
  { destruct (max_by_total (λ l, improvement f X l)
                (filter (λ l, d !! l = None) c)) as [value Hvalue].
    - apply Exists_exists in Hneg as (l & Hl & Hlt).
      assert (l ∈ filter (λ l, d !! l = None) c) as Hin.
      { apply list_elem_of_filter. split; [|done].
        destruct (d !! l) eqn:Hdl; [|done].
        assert (0 < l) by (apply Hkeys; by rewrite Hdl). lia. }
      intros Hnil. rewrite Hnil in Hin. by apply elem_of_nil in Hin.
    - intros l [_ Hl]%list_elem_of_filter. rewrite improvement_abs.
      apply (improvement_total n); [done..|]. by eapply wf_clause_elem.
    - exists value. split; [done|].
      apply max_by_spec in Hvalue as [[_ Hin]%list_elem_of_filter _].
      rewrite Forall_forall in Hall. by apply Hall. }
  destruct Hkey as [count Hcount]. split.
  - unfold nested_flip. cbn [fst snd]. cbv zeta. rewrite Hmax. cbn [bind].
    rewrite decide_False; [done|]. by rewrite Hcount.
  - unfold check_flip. cbv zeta. rewrite Hmax. cbn [bind]. rewrite Hcount.
    case_decide; [|eauto].
    assert (in_range n (Z.abs value)) as Hv.
    { apply max_by_spec in Hmax as [[_ Hin]%list_elem_of_filter _].
      by eapply wf_clause_elem. }
    destruct (flip_Ok n X (Z.abs value) HX Hv) as (b & _ & ->). simpl. eauto.
Qed.

(** The lemma at the state in which the cascade of [standard_tabu] meets
    the clause [(-2)] on the formula [(-2) (1)]. *)
Example forbidden_clause_passes_in_the_cascade :
  let f := [[-2]; [1]] in
  let forced := flipped (flipped (ind_of [false; true]) 1 false) 2 true in
  let d : gmap Z Z := {[2 := 0]} in
  nested_flip f 5 (forced, d) [-2] = Ok (forced, d)
  ∧ ∃ r, check_flip f 5 forced [-2] d = Ok r.
Proof.
  intros f forced d. apply (forbidden_clause_passes 2); [solve_wf..| | |].
  - intros v [a [<- _]%lookup_singleton_Some]. lia.
  - by repeat constructor.
  - apply Exists_cons_hd. lia.
Qed.

(** ** Crossover on well-formed input *)

Lemma sat_crossover_total n X c :
  wf_individual n X → wf_clause n c → ∃ b, sat_crossover X c = Ok b.
Proof.
  intros [Hd Hf] Hc. induction Hc as [|a c Ha _ [r IH]]; [by exists false|].
  rewrite sat_crossover_cons. unfold get_defined, get.
  destruct (read_bit_in_range (defined X) (Z.abs a)) as [d ->];
    [by rewrite Hf|].
  destruct (read_bit_in_range (data X) (Z.abs a)) as [b ->];
    [by rewrite Hd|].
  simpl. destruct d; simpl; [|eauto]. rewrite IH. case_bool_decide; eauto.
Qed.

Lemma cc_clause_total n f x y z c :
  wf_cnf n f → wf_individual n x → wf_individual n y → wf_individual n z →
  wf_clause n c →
  ∃ z', cc_clause f x y z c = Ok z'.
Proof.
  intros Hf Hx Hy Hz Hc. unfold cc_clause.
  destruct (sat_total n x c (proj1 Hx) Hc) as [sx ->]. simpl.
  destruct sx; [eauto|].
  destruct (sat_total n y c (proj1 Hy) Hc) as [sy ->]. simpl.
  destruct sy; [eauto|].
  destruct (sat_crossover_total n z c Hz Hc) as [sz ->]. simpl.
  destruct sz; [eauto|].
  set (g := λ l, match combined_gain f x y l with Ok v => v | Raise _ => 0 end).
  assert (∀ l, l ∈ c → combined_gain f x y l = Ok (g l)) as Hg.
  { intros l Hl. unfold g.
    destruct (combined_gain_total n f x y l Hf Hx Hy) as [v ->];
      [by eapply wf_clause_elem | done]. }
  destruct (cc_scan_from f x y g c 0 0 Hg) as (M & p & Hrun & _ & _ & Hlast).
  fold (cc_scan f x y c) in Hrun. rewrite Hrun. simpl.
  case_decide as HM; [|eauto].
  destruct Hlast as [(-> & _) | (pre & l & post & -> & _ & -> & _)]; [done|].
  assert (in_range n (Z.abs l)) as Hp.
  { eapply wf_clause_elem; [done|]. apply elem_of_app. right.
    apply elem_of_cons. by left. }
  destruct (cc_update_Ok n x z (Z.abs l) Hx Hz Hp) as (xb & _ & -> & _).
  eauto.
Qed.

(** What [evaluate] has stored once stays: the individual keeps its values
    and flags, its cache is valid, and another call changes nothing. *)
Lemma evaluate_store_stored f X X' :
  evaluate_store f X = Ok X' →
  data X' = data X ∧ defined X' = defined X
  ∧ evaluate f X' = evaluate f X ∧ evaluate_store f X' = Ok X'.
Proof.
  unfold evaluate_store, evaluate. destruct (isCacheValid X) eqn:Hv.
  - intros [= <-]. by rewrite Hv.
  - intros (a & Ha & H)%bind_Ok. inversion H; subst. simpl. done.
Qed.

(** The gain [improvement] computes does not depend on whether an earlier
    call has already stored the fitness. *)
Lemma improvement_stored f X X' v :
  evaluate_store f X = Ok X' → improvement f X' v = improvement f X v.
Proof.
  intros HX. destruct (evaluate_store_stored f X X' HX) as (_ & _ & He & Hs).
  unfold improvement. by rewrite He, Hs, HX.
Qed.

Lemma improvement_store_Ok f X v X' :
  improvement_store f X v = Ok X' → evaluate_store f X = Ok X'.
Proof. unfold improvement_store. by intros (? & _ & H)%bind_Ok. Qed.

Lemma improvement_store_total n f X v :
  wf_cnf n f → wf_individual n X → in_range n v →
  ∃ X', improvement_store f X v = Ok X'.
Proof.
  intros Hf HX Hv. unfold improvement_store.
  destruct (improvement_total n f X v Hf HX Hv) as [d ->]. simpl.
  destruct (evaluate_total n f X (proj1 HX) Hf) as [a Ha].
  destruct (evaluate_store_transparent f X a Ha) as (X' & -> & _). eauto.
Qed.

Lemma wf_evaluate_store n f X X' :
  wf_individual n X → evaluate_store f X = Ok X' → wf_individual n X'.
Proof.
  intros [Hd Hf] (Hd' & Hf' & _)%evaluate_store_stored. split; congruence.
Qed.

Lemma wf_parents_evaluated n f xy xy' :
  wf_individual n (fst xy) → wf_individual n (snd xy) →
  parents_evaluated f xy xy' →
  wf_individual n (fst xy') ∧ wf_individual n (snd xy').
Proof.
  intros Hx Hy [-> | [Hsx Hsy]]; [done|].
  split; [exact (wf_evaluate_store n f _ _ Hx Hsx)
         | exact (wf_evaluate_store n f _ _ Hy Hsy)].
Qed.

(** One literal of the scan leaves both parents with their fitness
    stored. *)
Lemma cc_scan_parents_step_evaluated f xy xy1 lit xy2 :
  parents_evaluated f xy xy1 →
  cc_scan_parents_step f xy1 lit = Ok xy2 →
  evaluate_store f (fst xy) = Ok (fst xy2)
  ∧ evaluate_store f (snd xy) = Ok (snd xy2).
Proof.
  intros Hev. unfold cc_scan_parents_step.
  intros (x2 & Hx2%improvement_store_Ok & H)%bind_Ok.
  apply bind_Ok in H as (y2 & Hy2%improvement_store_Ok & H).
  inversion H; subst. simpl.
  destruct Hev as [-> | [Hsx Hsy]]; [done|].
  pose proof (evaluate_store_stored f _ _ Hsx) as (_ & _ & _ & Hsx').
  pose proof (evaluate_store_stored f _ _ Hsy) as (_ & _ & _ & Hsy').
  split; congruence.
Qed.

Lemma cc_scan_parents_evaluated f xy c : ∀ xy1 xy2,
  parents_evaluated f xy xy1 →
  for_each (cc_scan_parents_step f) c xy1 = Ok xy2 →
  parents_evaluated f xy xy2.
Proof.
  apply for_each_invariant. intros s a s' Hs Hstep. right.
  by eapply cc_scan_parents_step_evaluated.
Qed.

Lemma cc_scan_parents_total n f c : ∀ xy,
  wf_cnf n f → wf_clause n c →
  wf_individual n (fst xy) → wf_individual n (snd xy) →
  ∃ xy', for_each (cc_scan_parents_step f) c xy = Ok xy'.
Proof.
  intros xy Hf Hc. revert xy.
  induction Hc as [|l c Hl _ IH]; intros xy Hx Hy; simpl; [eauto|].
  unfold cc_scan_parents_step at 1.
  destruct (improvement_store_total n f (fst xy) (Z.abs l) Hf Hx Hl)
    as [x' Hx'].
  destruct (improvement_store_total n f (snd xy) (Z.abs l) Hf Hy Hl)
    as [y' Hy'].
  rewrite Hx'. simpl. rewrite Hy'. simpl. apply IH; simpl.
  - eapply wf_evaluate_store; [exact Hx|]. by eapply improvement_store_Ok.
  - eapply wf_evaluate_store; [exact Hy|]. by eapply improvement_store_Ok.
Qed.

(** The body of the clause loop computes the same child from the parents as
    they entered the method and from the parents as earlier turns left
    them. *)
Lemma cc_clause_evaluated f x y xy z c :
  parents_evaluated f (x, y) xy →
  cc_clause f (fst xy) (snd xy) z c = cc_clause f x y z c.
Proof.
  intros [-> | [Hsx Hsy]]; [done|]. simpl in Hsx, Hsy.
  destruct (evaluate_store_stored f x _ Hsx) as (Hdx & _).
  destruct (evaluate_store_stored f y _ Hsy) as (Hdy & _).
  assert (∀ c' st, for_each (cc_scan_step f (fst xy) (snd xy)) c' st
                   = for_each (cc_scan_step f x y) c' st) as Hscan.
  { induction c' as [|l c' IH]; intros st; simpl; [done|].
    unfold cc_scan_step at 1 3.
    rewrite (improvement_stored f x (fst xy) (Z.abs l) Hsx).
    rewrite (improvement_stored f y (snd xy) (Z.abs l) Hsy).
    destruct (improvement f x (Z.abs l)); simpl; [|done].
    destruct (improvement f y (Z.abs l)); simpl; [|done].
    case_decide; apply IH. }
  unfold cc_clause, cc_scan, cc_update, get.
  rewrite (sat_ext (fst xy) x c Hdx), (sat_ext (snd xy) y c Hdy).
  by rewrite Hscan, Hdx.
Qed.

Lemma cc_clause_parents_evaluated f xy xy1 z c xy2 :
  parents_evaluated f xy xy1 →
  cc_clause_parents f xy1 z c = Ok xy2 →
  parents_evaluated f xy xy2.
Proof.
  intros Hev. unfold cc_clause_parents. intros (sx & _ & H)%bind_Ok.
  destruct sx; [by inversion H; subst|].
  apply bind_Ok in H as (sy & _ & H). destruct sy; [by inversion H; subst|].
  apply bind_Ok in H as (sz & _ & H). destruct sz; [by inversion H; subst|].
  by eapply cc_scan_parents_evaluated.
Qed.

Lemma cc_clause_parents_total n f xy z c :
  wf_cnf n f → wf_clause n c →
  wf_individual n (fst xy) → wf_individual n (snd xy) → wf_individual n z →
  ∃ xy', cc_clause_parents f xy z c = Ok xy'.
Proof.
  intros Hf Hc Hx Hy Hz. unfold cc_clause_parents.
  destruct (sat_total n (fst xy) c (proj1 Hx) Hc) as [sx ->]. simpl.
  destruct sx; [eauto|].
  destruct (sat_total n (snd xy) c (proj1 Hy) Hc) as [sy ->]. simpl.
  destruct sy; [eauto|].
  destruct (sat_crossover_total n z c Hz Hc) as [sz ->]. simpl.
  destruct sz; [eauto|].
  by eapply cc_scan_parents_total.
Qed.

(** The clause loop of [corrective_clause] on well-formed input: it ends,
    the child it builds is the one [cc_clause] builds from the parents as
    they entered, and the parents leave it untouched or with their fitness
    stored. *)
Lemma cc_turns_spec n f x y : ∀ cs xy z,
  wf_cnf n f → Forall (wf_clause n) cs →
  wf_individual n x → wf_individual n y → wf_individual n z →
  parents_evaluated f (x, y) xy →
  ∃ xy' z', for_each (cc_turn f) cs (xy, z) = Ok (xy', z')
            ∧ parents_evaluated f (x, y) xy'
            ∧ for_each (cc_clause f x y) cs z = Ok z'
            ∧ wf_individual n z'.
Proof.
  induction cs as [|c cs IH]; intros xy z Hf Hcs Hx Hy Hz Hev.
  { exists xy, z. done. }
  apply Forall_cons in Hcs as [Hc Hcs].
  destruct (cc_clause_total n f x y z c Hf Hx Hy Hz Hc) as [z1 Hz1].
  destruct (wf_parents_evaluated n f (x, y) xy Hx Hy Hev) as [Hx1 Hy1].
  destruct (cc_clause_parents_total n f xy z c Hf Hc Hx1 Hy1 Hz)
    as [xy1 Hxy1].
  assert (cc_turn f (xy, z) c = Ok (xy1, z1)) as Hturn.
  { unfold cc_turn. cbn [fst snd].
    rewrite (cc_clause_evaluated f x y xy z c Hev), Hz1. cbn [bind].
    by rewrite Hxy1. }
  cbn [for_each]. rewrite Hturn, Hz1. cbn [bind].
  apply IH; try done.
  - exact (cc_clause_wf n f x y z c z1 Hz Hz1).
  - exact (cc_clause_parents_evaluated f (x, y) xy z c xy1 Hev Hxy1).
Qed.

(** X11.  On a formula whose literals name existing variables, and parents
    and a fresh child with that many variables, [corrective_clause] raises
    no exception.  Its clause loop ends with a child [z] that still has [n]
    variables, and the method returns [allocate] of that child on the
    parents as the loop left them: both untouched, or both with the fitness
    stored that the scan made [evaluate] compute. *)
Theorem corrective_clause_returns (n : nat) (f : cnf) (x y z0 : Individual) :
  wf_cnf n f → wf_individual n x → wf_individual n y → wf_individual n z0 →
  ∃ z x' y',
    for_each (cc_clause f x y) f z0 = Ok z
    ∧ wf_individual n z
    ∧ parents_evaluated f (x, y) (x', y')
    ∧ for_each (cc_turn f) f ((x, y), z0) = Ok ((x', y'), z)
    ∧ corrective_clause f x y z0 = Ok (allocate z x' y').
Proof.
  intros Hf Hx Hy Hz0.
  destruct (cc_turns_spec n f x y f (x, y) z0 Hf Hf Hx Hy Hz0)
    as ([x' y'] & z & Hloop & Hev & Hz & Hwf); [by left|].
  exists z, x', y'. split; [done|]. split; [done|]. split; [done|].
  split; [done|]. unfold corrective_clause. by rewrite Hloop.
Qed.

Lemma corrective_clause_returns_witness :
  let f := [[1]; [2]; [3]; [4]] in
  let x := ind_of [false; true; false; false] in
  let y := ind_of [false; false; true; true] in
  let z0 := mkIndividual [false; false; false; false]
                         [false; false; false; false] false 0 in
  ∃ z x' y',
    for_each (cc_clause f x y) f z0 = Ok z
    ∧ wf_individual 4 z
    ∧ parents_evaluated f (x, y) (x', y')
    ∧ for_each (cc_turn f) f ((x, y), z0) = Ok ((x', y'), z)
    ∧ corrective_clause f x y z0 = Ok (allocate z x' y').
Proof. intros f x y z0. apply corrective_clause_returns; solve_wf. Defined.

(** The scan of the first clause stores fitness 3 in [x] and 2 in [y], so
    [allocate] fills the child from [y]: the child is 1011. *)
Example corrective_clause_fills_from_fitter_parent :
  let f := [[1]; [2]; [3]; [4]] in
  let x := ind_of [false; true; false; false] in
  let y := ind_of [false; false; true; true] in
  let z0 := mkIndividual [false; false; false; false]
                         [false; false; false; false] false 0 in
  ∃ child, corrective_clause f x y z0 = Ok child
           ∧ data child = [true; false; true; true]
           ∧ corrective_clause_with_truth_maintenance f 4 x y z0 = Ok child.
Proof. eexists. repeat split. Qed.

Lemma fluerent_and_ferland_Ok_witness :
  let f := [[1; 2]; [-2]] in
  let x := ind_of [true; false] in
  let y := ind_of [true; false] in
  let z0 := mkIndividual [false; false] [false; false] false 0 in
  (Forall (λ c, sat x c = sat y c) f
   → fluerent_and_ferland f x y z0 = Ok (allocate z0 x y))
  ∧ (Exists (λ c, sat x c ≠ sat y c) f
     → fluerent_and_ferland f x y z0 = Raise TypeError).
Proof.
  intros f x y z0. apply (fluerent_and_ferland_Ok 2); solve_wf.
Defined.

(** ** Fitness of what the population manager returns *)

(** X7.  For an individual whose cache is coherent, [evaluate] lies between 0 and
    the number of clauses. *)
Theorem evaluate_bounds (f : cnf) (X : Individual) (a : Z) :
  cache_ok f X → evaluate f X = Ok a → 0 ≤ a ≤ Z.of_nat (length f).
Proof.
  intros Hcache Hev. apply (count_unsatisfied_bounds f X).
  unfold evaluate in Hev. unfold cache_ok in Hcache.
  destruct (isCacheValid X); [|done].
  inversion Hev; subst. by apply Hcache.
Qed.

Lemma evaluate_bounds_witness :
  0 ≤ 2 ≤ Z.of_nat (length [[1]; [2]; [-1; 2]]).
Proof.
  apply (evaluate_bounds [[1]; [2]; [-1; 2]] (ind_of [true; false]) 2);
    [solve_wf | reflexivity].
Defined.

(** ** [check_flip] *)

(** X19.  Whenever [check_flip] returns, it has picked a literal of the clause
    that is not a key of the map and whose improvement no other such literal
    exceeds.  If the variable of that literal is not a key either, it is
    flipped and entered with counter 1; if it is a key with a counter below
    [k], it is flipped and the counter raised; otherwise the key is dropped
    and nothing is flipped. *)
Theorem check_flip_picks_best_free_literal
    (f : cnf) (kk : Z) (X X' : Individual) (c : clause) (d d' : gmap Z Z) :
  check_flip f kk X c d = Ok (X', d') →
  ∃ l g,
    l ∈ c ∧ d !! l = None
    ∧ improvement f X l = Ok g
    ∧ (∀ l', l' ∈ c → d !! l' = None →
         ∃ g', improvement f X l' = Ok g' ∧ g' ≤ g)
    ∧ match d !! Z.abs l with
      | Some count =>
          if decide (count < kk)
          then flip X (Z.abs l) = Ok X' ∧ d' = <[Z.abs l := count + 1]> d
          else X' = X ∧ d' = delete (Z.abs l) d
      | None => flip X (Z.abs l) = Ok X' ∧ d' = <[Z.abs l := 1]> d
      end.
Proof.
  unfold check_flip. cbv zeta. intros (value & Hvalue & H)%bind_Ok.
  apply max_by_spec in Hvalue as [[Hfree Hin]%list_elem_of_filter
                                    (g & Hg & Hmax)].
  exists value, g. split; [done|]. split; [done|]. split; [done|]. split.
  { intros l' Hl' Hfree'. apply Hmax. by apply list_elem_of_filter. }
  destruct (d !! Z.abs value) as [count|].
  - case_decide.
    + apply bind_Ok in H as (X1 & HX1 & H). inversion H; subst. done.
    + inversion H; subst. done.
  - apply bind_Ok in H as (X1 & HX1 & H). inversion H; subst. done.
Qed.

Lemma check_flip_picks_best_free_literal_witness :
  let f := [[1; 2]; [2]] in
  let X := ind_of [false; false] in
  let X' := flipped X 2 false in
  let d : gmap Z Z := ∅ in
  let d' : gmap Z Z := {[2 := 1]} in
  ∃ l g,
    l ∈ [1; 2] ∧ d !! l = None
    ∧ improvement f X l = Ok g
    ∧ (∀ l', l' ∈ [1; 2] → d !! l' = None →
         ∃ g', improvement f X l' = Ok g' ∧ g' ≤ g)
    ∧ match d !! Z.abs l with
      | Some count =>
          if decide (count < 5)
          then flip X (Z.abs l) = Ok X' ∧ d' = <[Z.abs l := count + 1]> d
          else X' = X ∧ d' = delete (Z.abs l) d
      | None => flip X (Z.abs l) = Ok X' ∧ d' = <[Z.abs l := 1]> d
      end.
Proof.
  intros f X X' d d'.
  apply (check_flip_picks_best_free_literal f 5 X X' [1; 2] d d').
  reflexivity.
Defined.
